(** * game_agent.py: time-bounded minimax / alpha-beta move selection

    A shallow embedding of [src/game_agent.py].

    - Python floats used as scores are modelled by exact rationals extended
      with the two infinities ([score]); rounding is not modelled.  Only
      comparisons, [max]/[min] and the constants [float("inf")] and
      [float("-inf")] are applied to scores by the search.
    - A move is a pair of integers, compared the way Python compares tuples.
    - The board ([isolation.Board]) is an external collaborator: it is taken
      as an interface ([Board]).
    - The clock [time_left] is an external callable.  A run observes a
      sequence of readings; the state threaded through the search is the
      number of readings taken so far.
    - [raise] / [try ... except Timeout] are modelled by the [result] type. *)

From Stdlib Require Import List ZArith QArith Qcanon Bool String Lia Arith.
Import ListNotations.

Local Open Scope Z_scope.

(** ** Scores, moves and Python comparisons *)

Definition move : Type := (Z * Z)%type.

(** The "no move" value [(-1,-1)]. *)
Definition sentinel : move := (-1, -1).

Inductive score : Type :=
| NegInf            (* float("-inf") *)
| Fin (q : Qc)
| PosInf.           (* float("inf") *)

Definition Qc_ltb (x y : Qc) : bool :=
  match (x ?= y)%Qc with Lt => true | _ => false end.

Definition Qc_eqb (x y : Qc) : bool :=
  match (x ?= y)%Qc with Eq => true | _ => false end.

(** [a < b] on floats. *)
Definition score_ltb (a b : score) : bool :=
  match a, b with
  | NegInf, NegInf => false
  | NegInf, _ => true
  | Fin _, NegInf => false
  | Fin x, Fin y => Qc_ltb x y
  | Fin _, PosInf => true
  | PosInf, _ => false
  end.

(** [a == b] on floats. *)
Definition score_eqb (a b : score) : bool :=
  match a, b with
  | NegInf, NegInf => true
  | Fin x, Fin y => Qc_eqb x y
  | PosInf, PosInf => true
  | _, _ => false
  end.

(** [a <= b] and [a >= b] on floats. *)
Definition score_leb (a b : score) : bool := score_ltb a b || score_eqb a b.
Definition score_geb (a b : score) : bool := score_leb b a.

Definition score_lt (a b : score) : Prop := score_ltb a b = true.
Definition score_le (a b : score) : Prop := score_leb a b = true.


(** Python compares two tuples by the first position at which they differ
    (by [==]); equal tuples are neither [<] nor [>]. *)
Definition move_eqb (a b : move) : bool :=
  (fst a =? fst b) && (snd a =? snd b).

Definition move_ltb (a b : move) : bool :=
  if negb (fst a =? fst b) then fst a <? fst b
  else if negb (snd a =? snd b) then snd a <? snd b
  else false.

Definition move_gtb (a b : move) : bool := move_ltb b a.

Definition result_ltb (x y : score * move) : bool :=
  if negb (score_eqb (fst x) (fst y)) then score_ltb (fst x) (fst y)
  else if negb (move_eqb (snd x) (snd y)) then move_ltb (snd x) (snd y)
  else false.

Definition result_gtb (x y : score * move) : bool :=
  if negb (score_eqb (fst x) (fst y)) then score_ltb (fst y) (fst x)
  else if negb (move_eqb (snd x) (snd y)) then move_gtb (snd x) (snd y)
  else false.

(** The builtins [max(a, b)] and [min(a, b)]: the first argument is kept
    unless the second compares strictly greater (resp. smaller). *)
Definition py_max (a b : score * move) : score * move :=
  if result_gtb b a then b else a.

Definition py_min (a b : score * move) : score * move :=
  if result_ltb b a then b else a.

Definition score_max (a b : score) : score :=
  if score_ltb a b then b else a.

Definition score_min (a b : score) : score :=
  if score_ltb b a then b else a.

(** Lexicographic order on coordinate pairs, stated independently of the
    Python comparison above. *)
Definition lex_lt (a b : move) : Prop :=
  fst a < fst b \/ (fst a = fst b /\ snd a < snd b).

(** ** The running best of the two searches *)

(** [new] displaces the incumbent [acc] in the maximizing search. *)
Definition displaces_max (acc new : score * move) : Prop :=
  score_lt (fst acc) (fst new) \/
  (fst new = fst acc /\ lex_lt (snd acc) (snd new)).

(** [new] displaces the incumbent [acc] in the minimizing search. *)
Definition displaces_min (acc new : score * move) : Prop :=
  score_lt (fst new) (fst acc) \/
  (fst new = fst acc /\ lex_lt (snd new) (snd acc)).

(** ** Exceptions and the clock-threading monad *)

Inductive exn : Type :=
  Timeout | ZeroDivisionError | TypeError | OverflowError.

(** A Python expression that yields a value or raises. *)
Inductive py (A : Type) : Type :=
| Val (a : A)
| Exn (e : exn).
Arguments Val {A} a.
Arguments Exn {A} e.

(** Outcome of a computation that queries the clock: a value together with
    the number of clock readings taken so far, or a raised exception. *)
Inductive result (A : Type) : Type :=
| Ret (a : A) (t : nat)
| Raise (e : exn).
Arguments Ret {A} a t.
Arguments Raise {A} e.

Definition M (A : Type) : Type := nat -> result A.

Definition ret {A} (a : A) : M A := fun t => Ret a t.

Definition bind {A B} (m : M A) (f : A -> M B) : M B :=
  fun t => match m t with
           | Ret a t' => f a t'
           | Raise e => Raise e
           end.

Definition lift {A} (p : py A) : M A :=
  fun t => match p with Val a => Ret a t | Exn e => Raise e end.

Notation "x <- m ;; k" := (bind m (fun x => k))
  (at level 61, m at next level, right associativity).
Notation "m ;;; k" := (bind m (fun _ => k))
  (at level 61, right associativity).


(** A computation that returns from every state. *)
Definition returns {A} (m : M A) : Prop :=
  forall t, exists x t', m t = Ret x t'.

(** Two computations that agree on what they return, whenever both do. *)
Definition agree {A} (m1 m2 : M A) : Prop :=
  forall t1 t2 x y t1' t2',
    m1 t1 = Ret x t1' -> m2 t2 = Ret y t2' -> x = y.

(** [m1] takes no more clock readings than [m2], whenever both return. *)
Definition cheaper {A} (m1 m2 : M A) : Prop :=
  forall t1 t2 x y t1' t2',
    m1 t1 = Ret x t1' -> m2 t2 = Ret y t2' ->
    (t1' + t2 <= t2' + t1)%nat.


(** A computation every clock reading of which, when it returns, satisfied
    [P], and which never takes back a reading. *)
Definition reads_only {A} (P : nat -> Prop) (m : M A) : Prop :=
  forall t x t',
    m t = Ret x t' ->
    (t <= t')%nat /\ forall k, (t <= k < t')%nat -> P k.

(** ** The board interface *)

Class Board (game player : Type) : Type := {
  (* game.get_legal_moves(player=None): None is the active player *)
  get_legal_moves : game -> option player -> list move;
  forecast_move : game -> move -> game;
  move_count : game -> Z;
  width : game -> Z;
  height : game -> Z;
  is_loser : game -> player -> bool;
  is_winner : game -> player -> bool;
  get_opponent : game -> player -> player;
  (* None before the player's first placement *)
  get_player_location : game -> player -> option move
}.

(** ** Floats

    Where the exact arithmetic of this model and the doubles of the code
    part ways. *)

(** Ints up to this magnitude convert to a double without rounding, and
    so do their halves. *)
Definition exact_int_bound : Z := 2 ^ 53.

(** [a / b] on ints raises OverflowError when the quotient rounded to the
    nearest double would reach [2^1024], that is from
    [2^1024 - 2^970] on in magnitude. *)
Definition true_div_overflows (a b : Z) : bool :=
  (2 ^ 1024 - 2 ^ 970) * Z.abs b <=? Z.abs a.

(** [math.floor(x / 2)] on an int [x].  The quotient is rounded to the
    nearest double (ties to even) before the floor is taken: up to
    [2^53] in magnitude nothing is rounded and the result is floor
    division; above, the double keeps 53 bits of [x / 2], which is then
    already an integer. *)
Definition py_floor_half (x : Z) : py Z :=
  let n := Z.abs x in
  if true_div_overflows x 2 then Exn OverflowError
  else if n <=? exact_int_bound then Val (x / 2)
  else
    let k := Z.log2 n - 53 in
    let r := n / 2 ^ (k + 1) in
    let rem := n mod 2 ^ (k + 1) in
    let r' :=
      if (2 ^ k <? rem) || ((rem =? 2 ^ k) && Z.odd r) then r + 1 else r in
    Val (Z.sgn x * (r' * 2 ^ k)).

(** ** Heuristics *)

Definition inject (z : Z) : Qc := Q2Qc (inject_Z z).

(** True division [a / b] of two ints, as the exact quotient.  The float
    Python returns is this quotient rounded to the nearest double; where
    the rounded quotient would leave the range of the doubles Python
    raises OverflowError instead ([true_div_overflows] below). *)
Definition true_div (a b : Z) : py Qc :=
  if b =? 0 then Exn ZeroDivisionError
  else Val (inject a / inject b)%Qc.

(** [float(own_moves - opp_moves)] *)
Definition lecture_heuristic (own_moves opp_moves : Z) : Qc :=
  inject (own_moves - opp_moves).

Definition lecture_heuristic_improved (own_moves opp_moves remaining_moves : Z)
  : py Qc :=
  true_div (own_moves - 2 * opp_moves) remaining_moves.

Definition survival_heuristic (own_moves remaining_moves : Z) : py Qc :=
  true_div (3 * (own_moves - 3)) remaining_moves.

(** [location[0]] on [None] raises TypeError. *)
Definition positional_heuristic (location : option move) (center : move)
           (remaining_moves : Z) : py score :=
  match location with
  | None => Exn TypeError
  | Some loc =>
      let distance :=
        Z.abs (fst loc - fst center) + Z.abs (snd loc - snd center) in
      if negb (distance =? 0) then
        match true_div remaining_moves (distance * 5) with
        | Val q => Val (Fin q)
        | Exn e => Exn e
        end
      else Val PosInf
  end.

(** Float addition of a finite value to a score. *)
Definition score_add_fin (q : Qc) (s : score) : score :=
  match s with
  | NegInf => NegInf
  | Fin r => Fin (q + r)%Qc
  | PosInf => PosInf
  end.

Section Heuristic.
Context {game player : Type} `{B : Board game player}.

(** [count += <list>] with an int on the left: Python has no addition of
    an int and a list, whatever their values. *)
Definition int_iadd_list (count : Z) (l : list move) : py Z :=
  Exn TypeError.

(** The [for m in game.get_legal_moves(player)] loop of
    [endgame_heuristic]. *)
Fixpoint endgame_loop (g : game) (p : player) (moves : list move) (count : Z)
  : py Z :=
  match moves with
  | [] => Val count
  | m :: rest =>
      match int_iadd_list count
                          (get_legal_moves (forecast_move g m) (Some p)) with
      | Val count' => endgame_loop g p rest count'
      | Exn e => Exn e
      end
  end.

Definition endgame_heuristic (g : game) (p : player) : py Z :=
  endgame_loop g p (get_legal_moves g (Some p)) 0.

Definition custom_score (g : game) (p : player) : py score :=
  if is_loser g p then Val NegInf
  else if is_winner g p then Val PosInf
  else
    let own_moves := Z.of_nat (List.length (get_legal_moves g (Some p))) in
    let opp_moves :=
      Z.of_nat (List.length (get_legal_moves g (Some (get_opponent g p)))) in
    let remaining_moves := width g * height g - move_count g in
    let location := get_player_location g p in
    let center := (width g / 2, height g / 2) in
    match lecture_heuristic_improved own_moves opp_moves remaining_moves with
    | Exn e => Exn e
    | Val lecture_score_improved =>
        match survival_heuristic own_moves remaining_moves with
        | Exn e => Exn e
        | Val survival_score =>
            match positional_heuristic location center remaining_moves with
            | Exn e => Exn e
            | Val positional_score =>
                Val (score_add_fin (lecture_score_improved + survival_score)%Qc
                                   positional_score)
            end
        end
    end.
End Heuristic.

(** ** The agent *)

Section Agent.
Context {game player : Type} `{B : Board game player}.

(** [CustomPlayer.__init__].  [score_fn] holds [self.score], already
    applied to the agent itself: the search only ever calls
    [self.score(game, self)]. *)
Record CustomPlayer : Type := {
  search_depth : Z;
  score_fn : game -> py score;
  iterative : bool;
  method : string;
  TIMER_THRESHOLD : Q
}.

Variable self : CustomPlayer.

(** [self.time_left]: the reading returned by the k-th query of the clock. *)
Variable time_left : nat -> Q.

Definition Q_ltb (a b : Q) : bool := negb (Qle_bool b a).

(** [if self.time_left() < self.TIMER_THRESHOLD: raise Timeout()] *)
Definition check_time : M unit :=
  fun t => if Q_ltb (time_left t) (TIMER_THRESHOLD self)
           then Raise Timeout
           else Ret tt (S t).

(** The k-th reading of the clock is not below the threshold. *)
Definition alive (t : nat) : Prop :=
  Q_ltb (time_left t) (TIMER_THRESHOLD self) = false.

(** The value of the evaluation function where it returns one. *)
Definition sv (g : game) : score :=
  match score_fn self g with Val s => s | Exn _ => NegInf end.


(** [return self.score(game, self),(-1,-1)] *)
Definition utility (g : game) : M (score * move) :=
  s <- lift (score_fn self g) ;; ret (s, sentinel).

(** The [for move in game.get_legal_moves()] loops of [max_value];
    [child] is the recursive call into [min_value] at [depth-1]. *)
Fixpoint max_loop (child : game -> M (score * move)) (g : game)
         (moves : list move) (acc : score * move) : M (score * move) :=
  match moves with
  | [] => ret acc
  | move :: rest =>
      check_time ;;;
      r <- child (forecast_move g move) ;;
      max_loop child g rest (py_max acc (fst r, move))
  end.

Fixpoint max_loop_prune (child : score -> score -> game -> M (score * move))
         (g : game) (moves : list move) (acc : score * move)
         (alpha beta : score) : M (score * move) :=
  match moves with
  | [] => ret acc
  | move :: rest =>
      check_time ;;;
      r <- child alpha beta (forecast_move g move) ;;
      let acc' := py_max acc (fst r, move) in
      if score_geb (fst acc') beta then ret acc'
      else max_loop_prune child g rest acc' (score_max alpha (fst acc')) beta
  end.

(** The loops of [min_value]. *)
Fixpoint min_loop (child : game -> M (score * move)) (g : game)
         (moves : list move) (acc : score * move) : M (score * move) :=
  match moves with
  | [] => ret acc
  | move :: rest =>
      check_time ;;;
      r <- child (forecast_move g move) ;;
      min_loop child g rest (py_min acc (fst r, move))
  end.

Fixpoint min_loop_prune (child : score -> score -> game -> M (score * move))
         (g : game) (moves : list move) (acc : score * move)
         (alpha beta : score) : M (score * move) :=
  match moves with
  | [] => ret acc
  | move :: rest =>
      check_time ;;;
      r <- child alpha beta (forecast_move g move) ;;
      let acc' := py_min acc (fst r, move) in
      if score_leb (fst acc') alpha then ret acc'
      else min_loop_prune child g rest acc' alpha (score_min beta (fst acc'))
  end.

(** [max_value] and [min_value].  [depth] is a natural number: [get_move]
    only passes depths from 1 upwards. *)
Fixpoint max_value (depth : nat) (g : game) (toPrune : bool)
         (alpha beta : score) {struct depth} : M (score * move) :=
  check_time ;;;
  match depth with
  | O => utility g
  | S d =>
      match get_legal_moves g None with
      | [] => utility g
      | moves =>
          if negb toPrune then
            max_loop (fun g' => min_value d g' false NegInf PosInf)
                     g moves (NegInf, sentinel)
          else
            max_loop_prune (fun a b g' => min_value d g' true a b)
                           g moves (NegInf, sentinel) alpha beta
      end
  end

with min_value (depth : nat) (g : game) (toPrune : bool)
         (alpha beta : score) {struct depth} : M (score * move) :=
  check_time ;;;
  match depth with
  | O => utility g
  | S d =>
      match get_legal_moves g None with
      | [] => utility g
      | moves =>
          if negb toPrune then
            min_loop (fun g' => max_value d g' false NegInf PosInf)
                     g moves (PosInf, sentinel)
          else
            min_loop_prune (fun a b g' => max_value d g' true a b)
                           g moves (PosInf, sentinel) alpha beta
      end
  end.

Definition minimax (g : game) (depth : nat) (maximizing_player : bool)
  : M (score * move) :=
  check_time ;;;
  if maximizing_player then max_value depth g false NegInf PosInf
  else min_value depth g false NegInf PosInf.

Definition alphabeta (g : game) (depth : nat) (alpha beta : score)
           (maximizing_player : bool) : M (score * move) :=
  check_time ;;;
  if maximizing_player then max_value depth g true alpha beta
  else min_value depth g true alpha beta.

(** [search_method(game, depth)] as selected in [get_move]. *)
Definition search_method (g : game) (depth : nat) : M (score * move) :=
  if String.eqb (method self) "minimax" then minimax g depth true
  else alphabeta g depth NegInf PosInf true.

(** The [while (True)] loop of [get_move] inside its [try] block, together
    with the [except Timeout] handler.  The handler returns [best_move] as
    it stands when the signal arrives, so the loop carries the accumulator
    and yields it from the iteration that was interrupted.  [fuel] bounds
    the number of iterations; [None] means the loop is still running. *)
Fixpoint deepening (fuel : nat) (g : game) (depth : nat)
         (best_score : score) (best_move : move) (t : nat)
  : option (py move) :=
  match fuel with
  | O => None
  | S fuel' =>
      match (check_time ;;; search_method g depth) t with
      | Raise Timeout => Some (Val best_move)
      | Raise e => Some (Exn e)
      | Ret (score, move) t' =>
          let best :=
            if score_ltb best_score score then (score, move)
            else (best_score, best_move) in
          if negb (iterative self) then Some (Val (snd best))
          else deepening fuel' g (S depth) (fst best) (snd best) t'
      end
  end.

(** [get_move].  [rnd] is the index drawn by
    [random.randint(0, len(legal_moves) - 1)].  The opening return
    [math.floor(game.height / 2), math.floor(game.width / 2)] is given as
    floor division, which is what the floats yield for dimensions up to
    [exact_int_bound] in magnitude (see [py_floor_half]). *)
Definition get_move (fuel : nat) (g : game) (legal_moves : list move)
           (rnd : nat) : option (py move) :=
  match check_time 0%nat with
  | Raise e => Some (Exn e)
  | Ret _ t =>
      match legal_moves with
      | [] => Some (Val sentinel)
      | _ =>
          if move_count g =? 1 then Some (Val (height g / 2, width g / 2))
          else
            let best_move := nth rnd legal_moves sentinel in
            let best_score := NegInf in
            deepening fuel g 1%nat best_score best_move t
      end
  end.

(** The accumulator update of the loop:
    [if score > best_score: best_score = score; best_move = move]. *)
Definition accumulate (best x : score * move) : score * move :=
  if score_ltb (fst best) (fst x) then x else best.

(** The results of [n] consecutive rounds of the loop that ran to
    completion, starting with [depth] at clock state [t], and the clock
    state they leave; [None] if one of them raises. *)
Fixpoint completed (g : game) (n depth t : nat)
  : option (list (score * move) * nat) :=
  match n with
  | O => Some ([], t)
  | S n' =>
      match (check_time ;;; search_method g depth) t with
      | Ret x t' =>
          match completed g n' (S depth) t' with
          | Some (xs, t'') => Some (x :: xs, t'')
          | None => None
          end
      | Raise _ => None
      end
  end.

End Agent.

(** ** The reference value of a position

    The textbook minimax value at depth [d]: the evaluation at the horizon
    and at positions without moves, otherwise the largest (smallest) value
    among the successors. *)

Section Reference.
Context {game player : Type} `{B : Board game player}.
Variable sv : game -> score.

Fixpoint minimax_value (maxi : bool) (d : nat) (g : game) : score :=
  match d with
  | O => sv g
  | S d' =>
      match get_legal_moves g None with
      | [] => sv g
      | moves =>
          if maxi then
            fold_right score_max NegInf
              (map (fun m => minimax_value false d' (forecast_move g m)) moves)
          else
            fold_right score_min PosInf
              (map (fun m => minimax_value true d' (forecast_move g m)) moves)
      end
  end.
End Reference.

(** A result [r] returned for the window [(a, b)] at a position of
    reference value [c]: exact inside the window, a bound on [c] outside. *)
Definition within (r c a b : score) : Prop :=
  (score_le r a -> score_le c r) /\
  (score_le b r -> score_le r c) /\
  (score_lt a r -> score_lt r b -> c = r).

(** ** A concrete board: explicit game trees

    Each node records what the board interface lets the agent observe,
    a value for evaluation functions that read it off the node, and the
    successor reached by each legal move of the side to move. *)

Record snapshot : Type := {
  s_move_count : Z;
  s_width : Z;
  s_height : Z;
  s_loser : bool;                 (* the agent has lost *)
  s_winner : bool;                (* the agent has won *)
  s_own : list move;              (* legal moves of the agent *)
  s_opp : list move;              (* legal moves of the opponent *)
  s_location : option move        (* location of the agent *)
}.

#[local] Set Warnings "-register-all".
Inductive tree : Type :=
| Node (info : snapshot) (val : score) (kids : list (move * tree)).

Definition info_of (g : tree) : snapshot := let 'Node i _ _ := g in i.
Definition val_of (g : tree) : score := let 'Node _ v _ := g in v.
Definition kids_of (g : tree) : list (move * tree) := let 'Node _ _ k := g in k.

Fixpoint lookup_kid (m : move) (kids : list (move * tree)) (dflt : tree)
  : tree :=
  match kids with
  | [] => dflt
  | (m', g') :: rest => if move_eqb m m' then g' else lookup_kid m rest dflt
  end.

(** Players of a tree game: [true] is the agent, [false] its opponent. *)
#[export] Instance tree_board : Board tree bool := {
  get_legal_moves g p :=
    match p with
    | None => map fst (kids_of g)
    | Some true => s_own (info_of g)
    | Some false => s_opp (info_of g)
    end;
  forecast_move g m := lookup_kid m (kids_of g) g;
  move_count g := s_move_count (info_of g);
  width g := s_width (info_of g);
  height g := s_height (info_of g);
  is_loser g p := if p then s_loser (info_of g) else s_winner (info_of g);
  is_winner g p := if p then s_winner (info_of g) else s_loser (info_of g);
  get_opponent _ p := negb p;
  get_player_location g p := if p then s_location (info_of g) else None
}.

(** A snapshot of a board of the given size after [mc] moves. *)
Definition plain_info (mc w h : Z) : snapshot :=
  {| s_move_count := mc; s_width := w; s_height := h;
     s_loser := false; s_winner := false;
     s_own := []; s_opp := []; s_location := None |}.

Definition leaf (mc : Z) (v : score) : tree :=
  Node (plain_info mc 3 3) v [].

Definition fin (z : Z) : score := Fin (inject z).

(** An agent over tree games whose evaluation function reads the value
    stored at the node. *)
Definition tree_player (depth : Z) (iter : bool) (meth : string) (thr : Q)
  : CustomPlayer (game := tree) :=
  {| search_depth := depth; score_fn := fun g => Val (val_of g);
     iterative := iter;
     method := meth; TIMER_THRESHOLD := thr |}.

(** An agent over tree games that evaluates with [custom_score]. *)
Definition custom_player (iter : bool) (meth : string) (thr : Q)
  : CustomPlayer (game := tree) :=
  {| search_depth := 3; score_fn := fun g => custom_score g true;
     iterative := iter; method := meth; TIMER_THRESHOLD := thr |}.

(** Clocks: one that never runs low, and one whose readings drop to zero
    from the n-th query on. *)
Definition clock_forever : nat -> Q := fun _ => 1000%Q.
Definition clock_until (n : nat) : nat -> Q :=
  fun k => if (k <? n)%nat then 1000%Q else 0%Q.

(** ** Example positions *)

(** The empty 3x3 board before any move: every cell is a legal move. *)
Definition cells3 : list move :=
  [(0,0); (1,0); (2,0); (0,1); (1,1); (2,1); (0,2); (1,2); (2,2)].

Definition empty_board3 (v : score) : tree :=
  Node (plain_info 0 3 3) v
       (map (fun m => (m, leaf 1 v)) cells3).

(** The same board when one move has been played. *)
Definition second_move_board3 (v : score) : tree :=
  Node (plain_info 1 3 3) v
       (map (fun m => (m, leaf 2 v)) cells3).

(** A position in which looking one ply ahead favours (0,0) and looking
    two plies ahead favours (0,1). *)
Definition fork_tree : tree :=
  Node (plain_info 2 3 3) (fin 0)
    [ ((0,0), Node (plain_info 3 3 3) (fin 5)
                [ ((1,0), Node (plain_info 4 3 3) (fin 0)
                            [ ((2,0), leaf 5 (fin 7)) ]) ]);
      ((0,1), Node (plain_info 3 3 3) (fin 3)
                [ ((1,1), Node (plain_info 4 3 3) (fin 4)
                            [ ((2,1), leaf 5 (fin 1)) ]) ]) ].


(** A position with two moves of equal two-ply score on the surface: the
    reply to (0,0) is worth 5, the replies to (0,1) are worth 5 and 1. *)
Definition tie_tree : tree :=
  Node (plain_info 2 3 3) (fin 0)
    [ ((0,0), Node (plain_info 3 3 3) (fin 0)
                [ ((1,0), leaf 4 (fin 5)) ]);
      ((0,1), Node (plain_info 3 3 3) (fin 0)
                [ ((1,1), leaf 4 (fin 5)); ((1,2), leaf 4 (fin 1)) ]) ].

(** A placed agent standing on the centre of a 3x3 board. *)
Definition centre_snapshot : snapshot :=
  {| s_move_count := 2; s_width := 3; s_height := 3;
     s_loser := false; s_winner := false;
     s_own := [(0,0); (2,0)]; s_opp := [(0,1)];
     s_location := Some (1,1) |}.

Definition centre_board : tree := Node centre_snapshot (fin 0) [].

(** The same board with the agent in a corner. *)
Definition corner_snapshot : snapshot :=
  {| s_move_count := 2; s_width := 3; s_height := 3;
     s_loser := false; s_winner := false;
     s_own := [(1,2); (2,1)]; s_opp := [(0,1)];
     s_location := Some (0,0) |}.

Definition corner_board : tree := Node corner_snapshot (fin 0) [].



(** A full board on which nobody has been declared winner or loser. *)
Definition full_board : tree := Node (plain_info 9 3 3) (fin 0) [].

(** A board on which the agent has not been placed yet. *)
Definition unplaced_board : tree := Node (plain_info 0 3 3) (fin 0) [].

(** * Properties *)

(** ** Order facts about scores *)

Lemma Qc_ltb_lt (x y : Qc) : Qc_ltb x y = true <-> (x < y)%Qc.
Proof.
  unfold Qc_ltb. rewrite Qclt_alt.
  destruct (x ?= y)%Qc; split; congruence.
Qed.

Lemma Qc_eqb_eq (x y : Qc) : Qc_eqb x y = true <-> x = y.
Proof.
  unfold Qc_eqb. rewrite Qceq_alt.
  destruct (x ?= y)%Qc; split; congruence.
Qed.

Lemma score_eqb_eq (a b : score) : score_eqb a b = true <-> a = b.
Proof.
  destruct a, b; simpl; try (split; congruence).
  rewrite Qc_eqb_eq. split; congruence.
Qed.

Lemma score_eqb_refl (a : score) : score_eqb a a = true.
Proof. now apply score_eqb_eq. Qed.

Lemma score_lt_irrefl (a : score) : ~ score_lt a a.
Proof.
  unfold score_lt. destruct a; simpl; try congruence.
  rewrite Qc_ltb_lt. intros H. apply (Qclt_not_eq _ _ H). reflexivity.
Qed.

Lemma score_lt_trans (a b c : score) :
  score_lt a b -> score_lt b c -> score_lt a c.
Proof.
  unfold score_lt. destruct a, b, c; simpl; try congruence.
  rewrite !Qc_ltb_lt. apply Qclt_trans.
Qed.

Lemma score_lt_total (a b : score) : score_lt a b \/ a = b \/ score_lt b a.
Proof.
  unfold score_lt. destruct a as [|x|], b as [|y|]; simpl; auto.
  rewrite !Qc_ltb_lt.
  destruct (Qc_dec x y) as [[H|H]|H]; auto. right; left; congruence.
Qed.

Lemma score_le_lteq (a b : score) : score_le a b <-> score_lt a b \/ a = b.
Proof.
  unfold score_le, score_leb, score_lt.
  rewrite orb_true_iff, score_eqb_eq. tauto.
Qed.

Module ScoreOrder.
Definition t := score.
Definition eq := @Logic.eq score.
Definition lt := score_lt.
Definition le := score_le.
#[export] Instance eq_equiv : Equivalence eq := eq_equivalence.
#[export] Instance lt_strorder : StrictOrder lt.
Proof.
  split.
  - intros a. apply score_lt_irrefl.
  - intros a b c. apply score_lt_trans.
Qed.
#[export] Instance lt_compat : Proper (eq ==> eq ==> iff) lt.
Proof. intros a a' -> b b' ->. reflexivity. Qed.
Definition le_lteq := score_le_lteq.
Definition lt_total := score_lt_total.
End ScoreOrder.

Module ScoreTac := OrdersTac.MakeOrderTac ScoreOrder ScoreOrder.

Ltac sorder :=
  change (@Logic.eq score) with ScoreOrder.eq in *;
  change score_lt with ScoreOrder.lt in *;
  change score_le with ScoreOrder.le in *;
  ScoreTac.order.

Lemma score_ltb_true (a b : score) : score_ltb a b = true <-> score_lt a b.
Proof. reflexivity. Qed.

Lemma score_ltb_false (a b : score) : score_ltb a b = false <-> ~ score_lt a b.
Proof. unfold score_lt. destruct (score_ltb a b); split; congruence. Qed.

Lemma score_leb_true (a b : score) : score_leb a b = true <-> score_le a b.
Proof. reflexivity. Qed.

Lemma score_leb_false (a b : score) : score_leb a b = false <-> ~ score_le a b.
Proof. unfold score_le. destruct (score_leb a b); split; congruence. Qed.

Lemma score_eqb_false (a b : score) : score_eqb a b = false <-> a <> b.
Proof.
  rewrite <- score_eqb_eq. destruct (score_eqb a b); split; congruence.
Qed.

Lemma NegInf_least (a : score) : score_le NegInf a.
Proof. destruct a; reflexivity. Qed.

Lemma PosInf_greatest (a : score) : score_le a PosInf.
Proof. destruct a; reflexivity. Qed.

(** Turn every boolean score comparison in the context and the goal into
    its propositional form. *)
Ltac score_props :=
  unfold score_geb in *;
  repeat match goal with
    | H : score_ltb ?a ?b = true |- _ => change (score_lt a b) in H
    | H : score_ltb _ _ = false |- _ => apply score_ltb_false in H
    | H : score_leb ?a ?b = true |- _ => change (score_le a b) in H
    | H : score_leb _ _ = false |- _ => apply score_leb_false in H
    | H : score_eqb _ _ = true |- _ => apply score_eqb_eq in H
    | H : score_eqb _ _ = false |- _ => apply score_eqb_false in H
    end.

(** ** Moves *)

Lemma move_eqb_eq (a b : move) : move_eqb a b = true <-> a = b.
Proof.
  destruct a as [a0 a1], b as [b0 b1]. unfold move_eqb. simpl.
  rewrite andb_true_iff, !Z.eqb_eq. split.
  - intros [-> ->]. reflexivity.
  - intros H. injection H. auto.
Qed.

Lemma move_ltb_lex (a b : move) : move_ltb a b = true <-> lex_lt a b.
Proof.
  destruct a as [a0 a1], b as [b0 b1]. unfold move_ltb, lex_lt. simpl.
  destruct (Z.eqb_spec a0 b0), (Z.eqb_spec a1 b1); simpl;
    rewrite ?Z.ltb_lt; split; try lia; try congruence.
Qed.

Lemma result_gtb_displaces (acc new : score * move) :
  result_gtb new acc = true <-> displaces_max acc new.
Proof.
  unfold result_gtb, displaces_max, move_gtb.
  destruct (score_eqb (fst new) (fst acc)) eqn:E; simpl; score_props.
  - destruct (move_eqb (snd new) (snd acc)) eqn:E'; simpl.
    + apply move_eqb_eq in E'. rewrite E', E. split; [congruence|].
      intros [H|[_ H]].
      * exfalso; sorder.
      * unfold lex_lt in H. lia.
    + rewrite move_ltb_lex. split; [auto|].
      intros [H|[_ H]]; [exfalso; sorder | exact H].
  - rewrite score_ltb_true. split; [auto|]. intros [H|[H _]]; [exact H|congruence].
Qed.

Lemma result_ltb_displaces (acc new : score * move) :
  result_ltb new acc = true <-> displaces_min acc new.
Proof.
  unfold result_ltb, displaces_min.
  destruct (score_eqb (fst new) (fst acc)) eqn:E; simpl; score_props.
  - destruct (move_eqb (snd new) (snd acc)) eqn:E'; simpl.
    + apply move_eqb_eq in E'. rewrite E', E. split; [congruence|].
      intros [H|[_ H]].
      * exfalso; sorder.
      * unfold lex_lt in H. lia.
    + rewrite move_ltb_lex. split; [auto|].
      intros [H|[_ H]]; [exfalso; sorder | exact H].
  - rewrite score_ltb_true. split; [auto|]. intros [H|[H _]]; [exact H|congruence].
Qed.

Lemma py_max_cases (acc new : score * move) :
  (displaces_max acc new -> py_max acc new = new) /\
  (~ displaces_max acc new -> py_max acc new = acc).
Proof.
  unfold py_max. rewrite <- result_gtb_displaces.
  destruct (result_gtb new acc); split; congruence.
Qed.

Lemma py_min_cases (acc new : score * move) :
  (displaces_min acc new -> py_min acc new = new) /\
  (~ displaces_min acc new -> py_min acc new = acc).
Proof.
  unfold py_min. rewrite <- result_ltb_displaces.
  destruct (result_ltb new acc); split; congruence.
Qed.

Lemma score_max_cases (a b : score) :
  (score_lt a b /\ score_max a b = b) \/ (score_le b a /\ score_max a b = a).
Proof.
  unfold score_max. destruct (score_ltb a b) eqn:E; score_props.
  - left. auto.
  - right. split; [sorder | reflexivity].
Qed.

Lemma score_min_cases (a b : score) :
  (score_lt b a /\ score_min a b = b) \/ (score_le a b /\ score_min a b = a).
Proof.
  unfold score_min. destruct (score_ltb b a) eqn:E; score_props.
  - left. auto.
  - right. split; [sorder | reflexivity].
Qed.

Lemma fst_py_max (acc : score * move) (s : score) (m : move) :
  fst (py_max acc (s, m)) = score_max (fst acc) s.
Proof.
  destruct (py_max_cases acc (s, m)) as [Hd Hn].
  destruct (score_max_cases (fst acc) s) as [[Hlt ->]|[Hle ->]].
  - rewrite Hd; [reflexivity | left; exact Hlt].
  - destruct (score_eqb s (fst acc)) eqn:E; score_props.
    + unfold py_max. destruct (result_gtb (s, m) acc); [exact E | reflexivity].
    + rewrite Hn; [reflexivity|]. intros [H|[H _]]; simpl in *; [sorder | congruence].
Qed.

Lemma fst_py_min (acc : score * move) (s : score) (m : move) :
  fst (py_min acc (s, m)) = score_min (fst acc) s.
Proof.
  destruct (py_min_cases acc (s, m)) as [Hd Hn].
  destruct (score_min_cases (fst acc) s) as [[Hlt ->]|[Hle ->]].
  - rewrite Hd; [reflexivity | left; exact Hlt].
  - destruct (score_eqb s (fst acc)) eqn:E; score_props.
    + unfold py_min. destruct (result_ltb (s, m) acc); [exact E | reflexivity].
    + rewrite Hn; [reflexivity|]. intros [H|[H _]]; simpl in *; [sorder | congruence].
Qed.

(** ** The monad *)

Lemma bind_Ret {A C} (m : M A) (f : A -> M C) (t t' : nat) (c : C) :
  bind m f t = Ret c t' ->
  exists a t1, m t = Ret a t1 /\ f a t1 = Ret c t'.
Proof.
  unfold bind. destruct (m t) as [a t1|e]; [|discriminate].
  intros H. exists a, t1. auto.
Qed.


Lemma bind_step {A C} (m : M A) (f : A -> M C) (t t1 : nat) (a : A) :
  m t = Ret a t1 -> bind m f t = f a t1.
Proof. unfold bind. now intros ->. Qed.

Lemma within_full (r c : score) : within r c NegInf PosInf -> r = c.
Proof.
  intros (H1 & H2 & H3).
  pose proof (NegInf_least r) as Hn. pose proof (PosInf_greatest r) as Hp.
  pose proof (NegInf_least c) as Hn'. pose proof (PosInf_greatest c) as Hp'.
  destruct (score_lt_total NegInf r) as [L|[L|L]];
    destruct (score_lt_total r PosInf) as [U|[U|U]];
    try (symmetry; apply H3; assumption);
    try (exfalso; sorder).
  - assert (score_le PosInf r) as X by sorder. specialize (H2 X). sorder.
  - assert (score_le r NegInf) as X by sorder. specialize (H1 X). sorder.
  - assert (score_le r NegInf) as X by sorder. specialize (H1 X). sorder.
Qed.

Ltac split_max_min :=
  repeat match goal with
    | |- context [score_max ?x ?y] =>
        let E := fresh "E" in
        destruct (score_max_cases x y) as [[? E]|[? E]]; rewrite E in *; clear E
    | |- context [score_min ?x ?y] =>
        let E := fresh "E" in
        destruct (score_min_cases x y) as [[? E]|[? E]]; rewrite E in *; clear E
    | _ : context [score_max ?x ?y] |- _ =>
        let E := fresh "E" in
        destruct (score_max_cases x y) as [[? E]|[? E]]; rewrite E in *; clear E
    | _ : context [score_min ?x ?y] |- _ =>
        let E := fresh "E" in
        destruct (score_min_cases x y) as [[? E]|[? E]]; rewrite E in *; clear E
    end.

Lemma score_max_assoc (a b c : score) :
  score_max (score_max a b) c = score_max a (score_max b c).
Proof. split_max_min; sorder. Qed.

Lemma score_min_assoc (a b c : score) :
  score_min (score_min a b) c = score_min a (score_min b c).
Proof. split_max_min; sorder. Qed.

Lemma score_max_NegInf_r (a : score) : score_max a NegInf = a.
Proof. destruct a; reflexivity. Qed.

Lemma score_min_PosInf_r (a : score) : score_min a PosInf = a.
Proof. destruct a; reflexivity. Qed.

Lemma score_max_ub_l (a b : score) : score_le a (score_max a b).
Proof. split_max_min; sorder. Qed.

Lemma score_max_ub_r (a b : score) : score_le b (score_max a b).
Proof. split_max_min; sorder. Qed.

Lemma score_max_either (a b : score) :
  score_max a b = a \/ score_max a b = b.
Proof. unfold score_max. destruct (score_ltb a b); auto. Qed.

Lemma score_min_lb_l (a b : score) : score_le (score_min a b) a.
Proof. split_max_min; sorder. Qed.

Lemma score_min_lb_r (a b : score) : score_le (score_min a b) b.
Proof. split_max_min; sorder. Qed.

Lemma score_min_either (a b : score) :
  score_min a b = a \/ score_min a b = b.
Proof. unfold score_min. destruct (score_ltb b a); auto. Qed.

(** A result below the upper end of its window is an upper bound of the
    reference value, and exact when it also exceeds the lower end. *)
Lemma within_below (r c a b : score) :
  within r c a b -> score_lt r b ->
  score_le c r /\ (score_lt a r -> c = r).
Proof.
  intros (H1 & H2 & H3) Hb. split.
  - destruct (score_lt_total a r) as [L|[L|L]].
    + specialize (H3 L Hb). sorder.
    + apply H1. sorder.
    + apply H1. sorder.
  - intros L. apply H3; assumption.
Qed.

(** Mirror image: a result above the lower end of its window. *)
Lemma within_above (r c a b : score) :
  within r c a b -> score_lt a r ->
  score_le r c /\ (score_lt r b -> c = r).
Proof.
  intros (H1 & H2 & H3) Ha. split.
  - destruct (score_lt_total r b) as [L|[L|L]].
    + specialize (H3 Ha L). sorder.
    + apply H2. sorder.
    + apply H2. sorder.
  - intros L. apply H3; assumption.
Qed.

(** ** What a search returns when it returns *)

Section SearchFacts.
Context {game player : Type} `{B : Board game player}.
Variable self : CustomPlayer (game := game).
Variable time_left : nat -> Q.

Lemma check_time_Ret (t t' : nat) (u : unit) :
  check_time self time_left t = Ret u t' -> t' = S t /\ alive self time_left t.
Proof.
  unfold check_time, alive.
  destruct (Q_ltb (time_left t) (TIMER_THRESHOLD self)); [discriminate|].
  intros H. injection H. auto.
Qed.

Lemma check_time_alive (t : nat) :
  alive self time_left t -> check_time self time_left t = Ret tt (S t).
Proof. unfold check_time, alive. now intros ->. Qed.


Lemma utility_Ret (g : game) (t t' : nat) (x : score * move) :
  utility self g t = Ret x t' -> x = (sv self g, sentinel) /\ t' = t.
Proof.
  unfold utility, bind, lift, ret, sv.
  destruct (score_fn self g); [|discriminate].
  intros H. injection H. auto.
Qed.

Lemma max_loop_value (child : game -> M (score * move)) (f : game -> score)
      (g : game) (moves : list move) :
  (forall g' t x t', child g' t = Ret x t' -> fst x = f g') ->
  forall acc t x t',
    max_loop self time_left child g moves acc t = Ret x t' ->
    fst x = score_max (fst acc)
              (fold_right score_max NegInf
                 (map (fun m => f (forecast_move g m)) moves)).
Proof.
  intros Hchild. induction moves as [|move rest IH]; intros acc t x t' H; simpl in *.
  - injection H as <- _. now rewrite score_max_NegInf_r.
  - apply bind_Ret in H as (u & t1 & _ & H).
    apply bind_Ret in H as (r & t2 & Hr & H).
    apply IH in H. rewrite H, fst_py_max, score_max_assoc.
    now rewrite (Hchild _ _ _ _ Hr).
Qed.

Lemma min_loop_value (child : game -> M (score * move)) (f : game -> score)
      (g : game) (moves : list move) :
  (forall g' t x t', child g' t = Ret x t' -> fst x = f g') ->
  forall acc t x t',
    min_loop self time_left child g moves acc t = Ret x t' ->
    fst x = score_min (fst acc)
              (fold_right score_min PosInf
                 (map (fun m => f (forecast_move g m)) moves)).
Proof.
  intros Hchild. induction moves as [|move rest IH]; intros acc t x t' H; simpl in *.
  - injection H as <- _. now rewrite score_min_PosInf_r.
  - apply bind_Ret in H as (u & t1 & _ & H).
    apply bind_Ret in H as (r & t2 & Hr & H).
    apply IH in H. rewrite H, fst_py_min, score_min_assoc.
    now rewrite (Hchild _ _ _ _ Hr).
Qed.

Lemma max_loop_prune_bound
      (child : score -> score -> game -> M (score * move))
      (f : game -> score) (g : game) :
  (forall a b g' t x t', score_lt a b -> child a b g' t = Ret x t' ->
                         within (fst x) (f g') a b) ->
  forall moves acc a b t x t',
    score_le (fst acc) a -> score_lt (fst acc) b -> score_lt a b ->
    max_loop_prune self time_left child g moves acc a b t = Ret x t' ->
    let C := fold_right score_max NegInf
               (map (fun m => f (forecast_move g m)) moves) in
    score_le (fst acc) (fst x) /\
    (score_le b (fst x) -> score_le (fst x) C) /\
    (score_lt (fst x) b -> score_le C (fst x)) /\
    (score_lt (fst x) b -> score_lt a (fst x) -> score_le (fst x) C).
Proof.
  intros Hchild. induction moves as [|move rest IH];
    intros acc a b t x t' Hva Hvb Hab H; simpl in *.
  - injection H as <- _.
    pose proof (NegInf_least (fst acc)).
    repeat split; intros; sorder.
  - apply bind_Ret in H as (u & t1 & _ & H).
    apply bind_Ret in H as (r & t2 & Hr & H).
    apply Hchild in Hr; [|exact Hab].
    set (c1 := f (forecast_move g move)) in *.
    set (C' := fold_right score_max NegInf
                 (map (fun m => f (forecast_move g m)) rest)) in *.
    rewrite fst_py_max in H.
    destruct (score_geb (score_max (fst acc) (fst r)) b) eqn:Ecut; score_props.
    + injection H as <- _. rewrite fst_py_max. clear IH Hchild.
      pose proof (score_max_ub_l c1 C') as Uc.
      destruct (score_max_either (fst acc) (fst r)) as [E|E]; rewrite E in *.
      * exfalso; sorder.
      * destruct Hr as (_ & Hhi & _). specialize (Hhi Ecut).
        repeat split; intros; sorder.
    + apply IH in H; fold C' in H; rewrite ?fst_py_max in *.
      * destruct H as (I1 & I2 & I3 & I4). clear IH Hchild.
        pose proof (score_max_ub_l (fst acc) (fst r)) as Uv.
        pose proof (score_max_ub_r (fst acc) (fst r)) as Ur.
        pose proof (score_max_ub_l c1 C') as Uc.
        pose proof (score_max_ub_r c1 C') as UC.
        assert (score_lt (fst r) b) as Hrb by sorder.
        destruct (within_below _ _ _ _ Hr Hrb) as [F1 F2].
        repeat split.
        -- sorder.
        -- intros Hx. specialize (I2 Hx). sorder.
        -- intros Hx. specialize (I3 Hx).
           destruct (score_max_either c1 C') as [E|E]; rewrite E; sorder.
        -- intros Hx Hax. specialize (I4 Hx).
           destruct (score_max_either a (score_max (fst acc) (fst r)))
             as [Ea|Ea]; rewrite Ea in I4.
           ++ specialize (I4 Hax). sorder.
           ++ destruct (score_lt_total (score_max (fst acc) (fst r)) (fst x))
                as [L|[L|L]].
              ** specialize (I4 L). sorder.
              ** destruct (score_max_either (fst acc) (fst r)) as [E|E];
                   rewrite E in L.
                 --- exfalso. sorder.
                 --- assert (score_lt a (fst r)) as Har by sorder.
                     specialize (F2 Har). sorder.
              ** exfalso. sorder.
      * pose proof (score_max_ub_r a (score_max (fst acc) (fst r))). assumption.
      * sorder.
      * destruct (score_max_either a (score_max (fst acc) (fst r)))
          as [E|E]; rewrite E; sorder.
Qed.

Lemma min_loop_prune_bound
      (child : score -> score -> game -> M (score * move))
      (f : game -> score) (g : game) :
  (forall a b g' t x t', score_lt a b -> child a b g' t = Ret x t' ->
                         within (fst x) (f g') a b) ->
  forall moves acc a b t x t',
    score_le b (fst acc) -> score_lt a (fst acc) -> score_lt a b ->
    min_loop_prune self time_left child g moves acc a b t = Ret x t' ->
    let C := fold_right score_min PosInf
               (map (fun m => f (forecast_move g m)) moves) in
    score_le (fst x) (fst acc) /\
    (score_le (fst x) a -> score_le C (fst x)) /\
    (score_lt a (fst x) -> score_le (fst x) C) /\
    (score_lt a (fst x) -> score_lt (fst x) b -> score_le C (fst x)).
Proof.
  intros Hchild. induction moves as [|move rest IH];
    intros acc a b t x t' Hvb Hva Hab H; simpl in *.
  - injection H as <- _.
    pose proof (PosInf_greatest (fst acc)).
    repeat split; intros; sorder.
  - apply bind_Ret in H as (u & t1 & _ & H).
    apply bind_Ret in H as (r & t2 & Hr & H).
    apply Hchild in Hr; [|exact Hab].
    set (c1 := f (forecast_move g move)) in *.
    set (C' := fold_right score_min PosInf
                 (map (fun m => f (forecast_move g m)) rest)) in *.
    rewrite fst_py_min in H.
    destruct (score_leb (score_min (fst acc) (fst r)) a) eqn:Ecut; score_props.
    + injection H as <- _. rewrite fst_py_min. clear IH Hchild.
      pose proof (score_min_lb_l c1 C') as Lc.
      destruct (score_min_either (fst acc) (fst r)) as [E|E]; rewrite E in *.
      * exfalso; sorder.
      * destruct Hr as (Hlo & _ & _). specialize (Hlo Ecut).
        repeat split; intros; sorder.
    + apply IH in H; fold C' in H; rewrite ?fst_py_min in *.
      * destruct H as (I1 & I2 & I3 & I4). clear IH Hchild.
        pose proof (score_min_lb_l (fst acc) (fst r)) as Lv.
        pose proof (score_min_lb_r (fst acc) (fst r)) as Lr.
        pose proof (score_min_lb_l c1 C') as Lc.
        pose proof (score_min_lb_r c1 C') as LC.
        assert (score_lt a (fst r)) as Har by sorder.
        destruct (within_above _ _ _ _ Hr Har) as [F1 F2].
        repeat split.
        -- sorder.
        -- intros Hx. specialize (I2 Hx). sorder.
        -- intros Hx. specialize (I3 Hx).
           destruct (score_min_either c1 C') as [E|E]; rewrite E; sorder.
        -- intros Hax Hx. specialize (I4 Hax).
           destruct (score_min_either b (score_min (fst acc) (fst r)))
             as [Eb|Eb]; rewrite Eb in I4.
           ++ specialize (I4 Hx). sorder.
           ++ destruct (score_lt_total (fst x) (score_min (fst acc) (fst r)))
                as [L|[L|L]].
              ** specialize (I4 L). sorder.
              ** destruct (score_min_either (fst acc) (fst r)) as [E|E];
                   rewrite E in L.
                 --- exfalso. sorder.
                 --- assert (score_lt (fst r) b) as Hrb by sorder.
                     specialize (F2 Hrb). sorder.
              ** exfalso. sorder.
      * pose proof (score_min_lb_r b (score_min (fst acc) (fst r))). assumption.
      * sorder.
      * destruct (score_min_either b (score_min (fst acc) (fst r)))
          as [E|E]; rewrite E; sorder.
Qed.

Lemma within_refl (c a b : score) : within c c a b.
Proof. repeat split; intros; sorder. Qed.

Lemma max_bound_within (r C a b : score) :
  score_lt a b ->
  (score_le b r -> score_le r C) ->
  (score_lt r b -> score_le C r) ->
  (score_lt r b -> score_lt a r -> score_le r C) ->
  within r C a b.
Proof.
  intros Hab I2 I3 I4. repeat split.
  - intros H. apply I3. sorder.
  - exact I2.
  - intros Ha Hb. specialize (I3 Hb). specialize (I4 Hb Ha). sorder.
Qed.

Lemma min_bound_within (r C a b : score) :
  score_lt a b ->
  (score_le r a -> score_le C r) ->
  (score_lt a r -> score_le r C) ->
  (score_lt a r -> score_lt r b -> score_le C r) ->
  within r C a b.
Proof.
  intros Hab I2 I3 I4. repeat split.
  - exact I2.
  - intros H. apply I3. sorder.
  - intros Ha Hb. specialize (I3 Ha). specialize (I4 Ha Hb). sorder.
Qed.

Lemma score_max_NegInf_l (a : score) : score_max NegInf a = a.
Proof. destruct a; reflexivity. Qed.

Lemma score_min_PosInf_l (a : score) : score_min PosInf a = a.
Proof. destruct a; reflexivity. Qed.

(** The two searches, when they return, return the reference value
    (plain) or a value within the window of it (pruned). *)
Lemma search_value (d : nat) :
  forall g,
    (forall a b t x t',
        max_value self time_left d g false a b t = Ret x t' ->
        fst x = minimax_value (sv self) true d g) /\
    (forall a b t x t',
        min_value self time_left d g false a b t = Ret x t' ->
        fst x = minimax_value (sv self) false d g) /\
    (forall a b t x t', score_lt a b ->
        max_value self time_left d g true a b t = Ret x t' ->
        within (fst x) (minimax_value (sv self) true d g) a b) /\
    (forall a b t x t', score_lt a b ->
        min_value self time_left d g true a b t = Ret x t' ->
        within (fst x) (minimax_value (sv self) false d g) a b).
Proof.
  induction d as [|d IH]; intros g.
  - split; [|split; [|split]]; intros; simpl in *;
      match goal with
      | H : bind _ _ _ = Ret _ _ |- _ =>
          apply bind_Ret in H as (? & ? & _ & H);
          apply utility_Ret in H as [-> _]; simpl
      end;
      solve [reflexivity | apply within_refl].
  - assert (forall t x t' (k : list move -> M (score * move)),
               bind (check_time self time_left)
                    (fun _ => match get_legal_moves g None with
                              | [] => utility self g
                              | m :: l => k (m :: l)
                              end) t = Ret x t' ->
               (get_legal_moves g None = [] /\ fst x = sv self g) \/
               (exists m l t1, get_legal_moves g None = m :: l /\
                               k (m :: l) t1 = Ret x t') ) as Hcase.
    { intros t x t' k H.
      apply bind_Ret in H as (? & t1 & _ & H).
      destruct (get_legal_moves g None) as [|m l].
      - apply utility_Ret in H as [-> _]. left. auto.
      - right. exists m, l, t1. auto. }
    split; [|split; [|split]]; intros a b t x t'.
    + intros H. simpl in H.
      apply (Hcase t x t'
               (fun ms => max_loop self time_left
                            (fun g' => min_value self time_left d g' false NegInf PosInf)
                            g ms (NegInf, sentinel))) in H.
      simpl. destruct H as [[-> ->]|(m & l & t1 & -> & H)]; [reflexivity|].
      eapply max_loop_value in H.
      * rewrite H. simpl fst. rewrite score_max_NegInf_l. reflexivity.
      * intros g' t0 x0 t0' H0. eapply (proj1 (proj2 (IH g'))). exact H0.
    + intros H. simpl in H.
      apply (Hcase t x t'
               (fun ms => min_loop self time_left
                            (fun g' => max_value self time_left d g' false NegInf PosInf)
                            g ms (PosInf, sentinel))) in H.
      simpl. destruct H as [[-> ->]|(m & l & t1 & -> & H)]; [reflexivity|].
      eapply min_loop_value in H.
      * rewrite H. simpl fst. rewrite score_min_PosInf_l. reflexivity.
      * intros g' t0 x0 t0' H0. eapply (proj1 (IH g')). exact H0.
    + intros Hab H. simpl in H.
      apply (Hcase t x t'
               (fun ms => max_loop_prune self time_left
                            (fun a b g' => min_value self time_left d g' true a b)
                            g ms (NegInf, sentinel) a b)) in H.
      simpl. destruct H as [[-> ->]|(m & l & t1 & -> & H)]; [apply within_refl|].
      pose proof (NegInf_least a) as Hn.
      assert (forall a0 b0 g' t0 x0 t0', score_lt a0 b0 ->
                min_value self time_left d g' true a0 b0 t0 = Ret x0 t0' ->
                within (fst x0) (minimax_value (sv self) false d g') a0 b0) as Hchild.
      { intros a0 b0 g' t0 x0 t0' Hab0 H0.
        eapply (proj2 (proj2 (proj2 (IH g')))); eassumption. }
      eapply (max_loop_prune_bound _ _ g Hchild) in H;
        [ | exact Hn | simpl; sorder | exact Hab ].
      cbv zeta in H. destruct H as (_ & I2 & I3 & I4).
      apply max_bound_within; assumption.
    + intros Hab H. simpl in H.
      apply (Hcase t x t'
               (fun ms => min_loop_prune self time_left
                            (fun a b g' => max_value self time_left d g' true a b)
                            g ms (PosInf, sentinel) a b)) in H.
      simpl. destruct H as [[-> ->]|(m & l & t1 & -> & H)]; [apply within_refl|].
      pose proof (PosInf_greatest b) as Hp.
      assert (forall a0 b0 g' t0 x0 t0', score_lt a0 b0 ->
                max_value self time_left d g' true a0 b0 t0 = Ret x0 t0' ->
                within (fst x0) (minimax_value (sv self) true d g') a0 b0) as Hchild.
      { intros a0 b0 g' t0 x0 t0' Hab0 H0.
        eapply (proj1 (proj2 (proj2 (IH g')))); eassumption. }
      eapply (min_loop_prune_bound _ _ g Hchild) in H;
        [ | exact Hp | simpl; sorder | exact Hab ].
      cbv zeta in H. destruct H as (_ & I2 & I3 & I4).
      apply min_bound_within; assumption.
Qed.

(** ** Exceptions and clock readings of a search *)




Lemma returns_ret {A} (a : A) : returns (ret a).
Proof. intros t. exists a, t. reflexivity. Qed.

Lemma returns_bind {A C} (m : M A) (f : A -> M C) :
  returns m -> (forall a, returns (f a)) -> returns (bind m f).
Proof.
  intros Hm Hf t. destruct (Hm t) as (a & t1 & E).
  destruct (Hf a t1) as (c & t2 & E'). exists c, t2.
  unfold bind. now rewrite E.
Qed.


Section TotalScore.
Hypothesis score_total : forall g, exists s, score_fn self g = Val s.


Lemma returns_utility (g : game) : returns (utility self g).
Proof.
  intros t. unfold utility, bind, lift, ret.
  destruct (score_total g) as [s ->]. eauto.
Qed.









Section NoTimePressure.
Hypothesis always_alive : forall t, alive self time_left t.

Lemma returns_check_time : returns (check_time self time_left).
Proof. intros t. exists tt, (S t). apply check_time_alive, always_alive. Qed.

Ltac returns_step :=
  repeat first
    [ apply returns_ret
    | apply returns_check_time
    | apply returns_bind; [|intros ?] ].

Lemma returns_max_loop child g moves :
  (forall g', returns (child g')) ->
  forall acc, returns (max_loop self time_left child g moves acc).
Proof.
  intros Hc. induction moves as [|move rest IH]; intros acc; simpl.
  - apply returns_ret.
  - returns_step; [apply Hc | apply IH].
Qed.

Lemma returns_min_loop child g moves :
  (forall g', returns (child g')) ->
  forall acc, returns (min_loop self time_left child g moves acc).
Proof.
  intros Hc. induction moves as [|move rest IH]; intros acc; simpl.
  - apply returns_ret.
  - returns_step; [apply Hc | apply IH].
Qed.

Lemma returns_max_loop_prune child g moves :
  (forall a b g', returns (child a b g')) ->
  forall acc a b,
    returns (max_loop_prune self time_left child g moves acc a b).
Proof.
  intros Hc. induction moves as [|move rest IH]; intros acc a b; simpl.
  - apply returns_ret.
  - returns_step; [apply Hc|].
    destruct (score_geb _ b); [apply returns_ret | apply IH].
Qed.

Lemma returns_min_loop_prune child g moves :
  (forall a b g', returns (child a b g')) ->
  forall acc a b,
    returns (min_loop_prune self time_left child g moves acc a b).
Proof.
  intros Hc. induction moves as [|move rest IH]; intros acc a b; simpl.
  - apply returns_ret.
  - returns_step; [apply Hc|].
    destruct (score_leb _ a); [apply returns_ret | apply IH].
Qed.

Lemma returns_search (d : nat) :
  forall g p a b,
    returns (max_value self time_left d g p a b) /\
    returns (min_value self time_left d g p a b).
Proof.
  induction d as [|d IH]; intros g p a b; cbn [max_value min_value].
  - split; (apply returns_bind; [apply returns_check_time|intros _]);
      apply returns_utility.
  - split; (apply returns_bind; [apply returns_check_time|intros _]);
      (destruct (get_legal_moves g None) as [|m l]; [apply returns_utility|]);
      destruct p; cbn [negb].
    + apply returns_max_loop_prune. intros; apply IH.
    + apply returns_max_loop. intros; apply IH.
    + apply returns_min_loop_prune. intros; apply IH.
    + apply returns_min_loop. intros; apply IH.
Qed.

Lemma returns_minimax (g : game) (depth : nat) (mp : bool) :
  returns (minimax self time_left g depth mp).
Proof.
  unfold minimax. returns_step. destruct mp; apply returns_search.
Qed.

Lemma returns_alphabeta (g : game) (depth : nat) (a b : score) (mp : bool) :
  returns (alphabeta self time_left g depth a b mp).
Proof.
  unfold alphabeta. returns_step. destruct mp; apply returns_search.
Qed.

End NoTimePressure.
End TotalScore.

(** ** The deepening loop and [get_move] *)


Lemma get_move_alive (fuel : nat) (g : game) (lm : list move) (rnd : nat) :
  alive self time_left 0%nat ->
  get_move self time_left fuel g lm rnd =
  match lm with
  | [] => Some (Val sentinel)
  | _ =>
      if move_count g =? 1 then Some (Val (height g / 2, width g / 2))
      else deepening self time_left fuel g 1%nat NegInf
                     (nth rnd lm sentinel) 1%nat
  end.
Proof.
  unfold get_move. intros H. rewrite (check_time_alive _ H). reflexivity.
Qed.


Lemma deepening_completed (g : game) :
  iterative self = true ->
  forall n depth t xs t' best fuel,
    completed self time_left g n depth t = Some (xs, t') ->
    deepening self time_left (n + fuel) g depth (fst best) (snd best) t =
    deepening self time_left fuel g (n + depth)
              (fst (fold_left accumulate xs best))
              (snd (fold_left accumulate xs best)) t'.
Proof.
  intros Hit. induction n as [|n IH]; intros depth t xs t' best fuel H.
  - simpl in H. injection H as <- <-. reflexivity.
  - simpl in H. simpl Nat.add. cbn [deepening].
    destruct (bind _ _ t) as [[s m] t1|e]; [|discriminate].
    destruct (completed self time_left g n (S depth) t1) as [[ys t2]|] eqn:E;
      [|discriminate].
    injection H as <- <-. rewrite Hit. cbn [negb].
    specialize (IH (S depth) t1 ys t2 (accumulate best (s, m)) fuel E).
    unfold accumulate at 1 2 in IH. simpl fst in IH.
    destruct (score_ltb (fst best) s); simpl in IH |- *;
      rewrite IH; f_equal; lia.
Qed.

Lemma deepening_interrupted (g : game) (fuel depth t : nat)
      (bs : score) (bm : move) :
  bind (check_time self time_left)
       (fun _ => search_method self time_left g depth) t = Raise Timeout ->
  deepening self time_left (S fuel) g depth bs bm t = Some (Val bm).
Proof. intros H. cbn [deepening]. now rewrite H. Qed.


End SearchFacts.

(** ** A search that returns does not depend on the clock *)

Section ClockIndependence.
Context {game player : Type} `{B : Board game player}.
Variable self : CustomPlayer (game := game).
Variables tl1 tl2 : nat -> Q.

Lemma agree_max_loop c1 c2 g moves :
  (forall g', agree (c1 g') (c2 g')) ->
  forall acc, agree (max_loop self tl1 c1 g moves acc)
                    (max_loop self tl2 c2 g moves acc).
Proof.
  intros Hc. induction moves as [|move rest IH];
    intros acc t1 t2 x y t1' t2' H1 H2; simpl in *.
  - unfold ret in *. congruence.
  - apply bind_Ret in H1 as (? & ? & _ & H1).
    apply bind_Ret in H1 as (r1 & ? & Hr1 & H1).
    apply bind_Ret in H2 as (? & ? & _ & H2).
    apply bind_Ret in H2 as (r2 & ? & Hr2 & H2).
    rewrite (Hc _ _ _ _ _ _ _ Hr1 Hr2) in H1. eapply IH; eassumption.
Qed.

Lemma agree_min_loop c1 c2 g moves :
  (forall g', agree (c1 g') (c2 g')) ->
  forall acc, agree (min_loop self tl1 c1 g moves acc)
                    (min_loop self tl2 c2 g moves acc).
Proof.
  intros Hc. induction moves as [|move rest IH];
    intros acc t1 t2 x y t1' t2' H1 H2; simpl in *.
  - unfold ret in *. congruence.
  - apply bind_Ret in H1 as (? & ? & _ & H1).
    apply bind_Ret in H1 as (r1 & ? & Hr1 & H1).
    apply bind_Ret in H2 as (? & ? & _ & H2).
    apply bind_Ret in H2 as (r2 & ? & Hr2 & H2).
    rewrite (Hc _ _ _ _ _ _ _ Hr1 Hr2) in H1. eapply IH; eassumption.
Qed.

Lemma agree_max_loop_prune c1 c2 g moves :
  (forall a b g', agree (c1 a b g') (c2 a b g')) ->
  forall acc a b, agree (max_loop_prune self tl1 c1 g moves acc a b)
                        (max_loop_prune self tl2 c2 g moves acc a b).
Proof.
  intros Hc. induction moves as [|move rest IH];
    intros acc a b t1 t2 x y t1' t2' H1 H2; simpl in *.
  - unfold ret in *. congruence.
  - apply bind_Ret in H1 as (? & ? & _ & H1).
    apply bind_Ret in H1 as (r1 & ? & Hr1 & H1).
    apply bind_Ret in H2 as (? & ? & _ & H2).
    apply bind_Ret in H2 as (r2 & ? & Hr2 & H2).
    rewrite (Hc _ _ _ _ _ _ _ _ _ Hr1 Hr2) in H1.
    destruct (score_geb _ b); [unfold ret in *; congruence|]. eapply IH; eassumption.
Qed.

Lemma agree_min_loop_prune c1 c2 g moves :
  (forall a b g', agree (c1 a b g') (c2 a b g')) ->
  forall acc a b, agree (min_loop_prune self tl1 c1 g moves acc a b)
                        (min_loop_prune self tl2 c2 g moves acc a b).
Proof.
  intros Hc. induction moves as [|move rest IH];
    intros acc a b t1 t2 x y t1' t2' H1 H2; simpl in *.
  - unfold ret in *. congruence.
  - apply bind_Ret in H1 as (? & ? & _ & H1).
    apply bind_Ret in H1 as (r1 & ? & Hr1 & H1).
    apply bind_Ret in H2 as (? & ? & _ & H2).
    apply bind_Ret in H2 as (r2 & ? & Hr2 & H2).
    rewrite (Hc _ _ _ _ _ _ _ _ _ Hr1 Hr2) in H1.
    destruct (score_leb _ a); [unfold ret in *; congruence|]. eapply IH; eassumption.
Qed.

Lemma agree_utility (g : game) : agree (utility self g) (utility self g).
Proof.
  intros t1 t2 x y t1' t2' H1 H2.
  apply utility_Ret in H1 as [-> _]. apply utility_Ret in H2 as [-> _].
  reflexivity.
Qed.

Lemma agree_checked {A} (m1 m2 : M A) :
  agree m1 m2 ->
  agree (bind (check_time self tl1) (fun _ => m1))
        (bind (check_time self tl2) (fun _ => m2)).
Proof.
  intros Hm t1 t2 x y t1' t2' H1 H2.
  apply bind_Ret in H1 as (? & ? & _ & H1).
  apply bind_Ret in H2 as (? & ? & _ & H2).
  eapply Hm; eassumption.
Qed.

Lemma agree_search (d : nat) :
  forall g p a b,
    agree (max_value self tl1 d g p a b) (max_value self tl2 d g p a b) /\
    agree (min_value self tl1 d g p a b) (min_value self tl2 d g p a b).
Proof.
  induction d as [|d IH]; intros g p a b; cbn [max_value min_value].
  - split; apply agree_checked, agree_utility.
  - split; apply agree_checked;
      (destruct (get_legal_moves g None) as [|m l]; [apply agree_utility|]);
      destruct p; cbn [negb].
    + apply agree_max_loop_prune. intros; apply IH.
    + apply agree_max_loop. intros; apply IH.
    + apply agree_min_loop_prune. intros; apply IH.
    + apply agree_min_loop. intros; apply IH.
Qed.

Lemma agree_search_method (g : game) (depth : nat) :
  agree (search_method self tl1 g depth) (search_method self tl2 g depth).
Proof.
  unfold search_method, minimax, alphabeta.
  destruct (String.eqb (method self) "minimax");
    apply agree_checked, agree_search.
Qed.

End ClockIndependence.

(** ** Arithmetic of the heuristics *)

Lemma inject_le (a b : Z) : a <= b -> (inject a <= inject b)%Qc.
Proof.
  intros H. change (Qred (inject_Z a) <= Qred (inject_Z b))%Q.
  rewrite !Qred_correct. now rewrite <- Zle_Qle.
Qed.







(** * The claims *)

(** ** The evaluation function *)

Section HeuristicFacts.
Context {game player : Type} `{B : Board game player}.

Lemma true_div_Val (a b : Z) :
  b <> 0 -> true_div a b = Val (inject a / inject b)%Qc.
Proof.
  intros H. unfold true_div. destruct (Z.eqb_spec b 0); [contradiction|].
  reflexivity.
Qed.

Lemma distance_zero (loc c : move) :
  Z.abs (fst loc - fst c) + Z.abs (snd loc - snd c) = 0 <-> loc = c.
Proof.
  destruct loc as [l0 l1], c as [c0 c1]. simpl. split.
  - intros H. f_equal; lia.
  - intros H. injection H as -> ->. lia.
Qed.


(** Without a location the positional term cannot be computed. *)
Lemma custom_score_needs_location (g : game) (p : player) :
  is_loser g p = false -> is_winner g p = false ->
  get_player_location g p = None ->
  exists e, custom_score g p = Exn e.
Proof.
  intros Hl Hw Hloc. unfold custom_score. rewrite Hl, Hw, Hloc.
  destruct (lecture_heuristic_improved _ _ _); [|eauto].
  destruct (survival_heuristic _ _); [|eauto].
  simpl. eauto.
Qed.

End HeuristicFacts.

(** Magnitudes: with a non-zero divisor the exact quotient of two ints is
    no larger than the dividend. *)
Lemma div_abs_bound (a r K : Z) :
  r <> 0 -> Z.abs a <= K ->
  (inject (- K) <= inject a / inject r)%Qc /\
  (inject a / inject r <= inject K)%Qc.
Proof.
  intros Hr Ha.
  assert (inject_Z (- K) <= inject_Z a / inject_Z r /\
          inject_Z a / inject_Z r <= inject_Z K)%Q as [L U].
  { unfold Qdiv, Qle, Qmult, Qinv, inject_Z.
    destruct r as [|p|p]; [congruence| |]; simpl; split; nia. }
  split.
  - change (Qred (inject_Z (- K))
            <= Qred (Qred (inject_Z a) * Qred (/ Qred (inject_Z r))))%Q.
    rewrite !Qred_correct. exact L.
  - change (Qred (Qred (inject_Z a) * Qred (/ Qred (inject_Z r)))
            <= Qred (inject_Z K))%Q.
    rewrite !Qred_correct. exact U.
Qed.

Lemma inject_plus (a b : Z) : (inject a + inject b)%Qc = inject (a + b).
Proof.
  apply Qc_is_canon.
  change (Qred (Qred (inject_Z a) + Qred (inject_Z b))
          == Qred (inject_Z (a + b)))%Q.
  rewrite !Qred_correct. rewrite inject_Z_plus. reflexivity.
Qed.

Lemma sum3_bound (x y z : Qc) (K1 K2 K3 K : Z) :
  (inject (- K1) <= x)%Qc /\ (x <= inject K1)%Qc ->
  (inject (- K2) <= y)%Qc /\ (y <= inject K2)%Qc ->
  (inject (- K3) <= z)%Qc /\ (z <= inject K3)%Qc ->
  K1 + K2 + K3 <= K ->
  (inject (- K) <= x + y + z)%Qc /\ (x + y + z <= inject K)%Qc.
Proof.
  intros [Lx Ux] [Ly Uy] [Lz Uz] HK. split.
  - apply Qcle_trans with (inject (- K1) + inject (- K2) + inject (- K3))%Qc.
    + rewrite !inject_plus. apply inject_le. lia.
    + repeat apply Qcplus_le_compat; assumption.
  - apply Qcle_trans with (inject K1 + inject K2 + inject K3)%Qc.
    + repeat apply Qcplus_le_compat; assumption.
    + rewrite !inject_plus. apply inject_le. lia.
Qed.

Lemma no_overflow (a r : Z) :
  r <> 0 -> Z.abs a <= 2 ^ 108 -> true_div_overflows a r = false.
Proof.
  intros Hr Ha. unfold true_div_overflows. apply Z.leb_gt.
  assert (2 ^ 108 < 2 ^ 1024 - 2 ^ 970) as Hc by reflexivity.
  revert Hc Ha. generalize (2 ^ 1024 - 2 ^ 970) (2 ^ 108). intros C D Hc Ha.
  nia.
Qed.

(** C6 (as amended).  [custom_score] returns [-inf] when the perspective
    player has lost and [+inf] when it has won.  In any other state where
    the player has a location and cells remain, on a board of ordinary
    size (width and height at most [2^53] in magnitude, move count at most
    [2^106], at most [2^53] legal moves for either player), none of its
    divisions overflows and it returns a score: [+inf] when the player
    stands on the centre cell [(width // 2, height // 2)], and otherwise a
    finite score whose three terms add up to at most [2^108] in
    magnitude, far inside the range of the doubles. *)
Theorem custom_score_values
        {game player : Type} `{B : Board game player} (g : game) (p : player) :
  (is_loser g p = true -> custom_score g p = Val NegInf) /\
  (is_loser g p = false -> is_winner g p = true ->
   custom_score g p = Val PosInf) /\
  (is_loser g p = false -> is_winner g p = false ->
   forall loc own_moves opp_moves remaining_moves distance,
     get_player_location g p = Some loc ->
     own_moves = Z.of_nat (List.length (get_legal_moves g (Some p))) ->
     opp_moves
     = Z.of_nat (List.length (get_legal_moves g (Some (get_opponent g p)))) ->
     remaining_moves = width g * height g - move_count g ->
     distance = Z.abs (fst loc - width g / 2) + Z.abs (snd loc - height g / 2) ->
     remaining_moves <> 0 ->
     Z.abs (width g) <= exact_int_bound ->
     Z.abs (height g) <= exact_int_bound ->
     Z.abs (move_count g) <= exact_int_bound * exact_int_bound ->
     own_moves <= exact_int_bound ->
     opp_moves <= exact_int_bound ->
     true_div_overflows (own_moves - 2 * opp_moves) remaining_moves = false /\
     true_div_overflows (3 * (own_moves - 3)) remaining_moves = false /\
     exists s,
       custom_score g p = Val s /\
       (distance = 0 <-> loc = (width g / 2, height g / 2)) /\
       (distance = 0 -> s = PosInf) /\
       (distance <> 0 ->
        true_div_overflows remaining_moves (distance * 5) = false /\
        exists q, s = Fin q /\
                  (inject (- 2 ^ 108) <= q)%Qc /\ (q <= inject (2 ^ 108))%Qc)).
Proof.
  unfold custom_score. split; [|split].
  - intros ->. reflexivity.
  - intros -> ->. reflexivity.
  - intros -> -> loc own opp rem dist -> Hown Hopp Hrem Hdist Hnz
           Hw Hh Hmc Bown Bopp.
    rewrite <- Hown, <- Hopp, <- Hrem.
    assert (0 <= own) as Pown by (subst own; lia).
    assert (0 <= opp) as Popp by (subst opp; lia).
    assert (exact_int_bound = 2 ^ 53) as EB by reflexivity.
    assert (2 ^ 108 = 4 * (2 ^ 53 * 2 ^ 53)) as E108 by reflexivity.
    assert (0 < 2 ^ 53) as P53 by reflexivity.
    rewrite EB in *. clear EB.
    assert (Z.abs rem <= 2 * (2 ^ 53 * 2 ^ 53)) as Brem.
    { rewrite Hrem. revert Hw Hh Hmc P53.
      generalize (2 ^ 53) (width g) (height g) (move_count g).
      intros D w h mc Hw Hh Hmc HD. nia. }
    assert (1 <= 2 ^ 53) as P1 by lia.
    revert E108 Brem Bown Bopp P53 P1. generalize (2 ^ 53). intros D E108 Brem
      Bown Bopp P53 P1.
    assert (Z.abs (own - 2 * opp) <= 2 * D) as B1 by lia.
    assert (Z.abs (3 * (own - 3)) <= 3 * D + 9) as B2 by lia.
    split; [apply no_overflow; [exact Hnz | nia]|].
    split; [apply no_overflow; [exact Hnz | nia]|].
    unfold lecture_heuristic_improved, survival_heuristic.
    rewrite !true_div_Val by exact Hnz.
    unfold positional_heuristic. cbn [fst snd]. rewrite <- Hdist.
    assert (dist = 0 <-> loc = (width g / 2, height g / 2)) as Hcentre.
    { rewrite Hdist. apply (distance_zero loc (width g / 2, height g / 2)). }
    destruct (Z.eqb_spec dist 0) as [E|E]; cbn [negb].
    + eexists. split; [reflexivity|]. split; [exact Hcentre|].
      split; [reflexivity | contradiction].
    + rewrite true_div_Val by lia.
      eexists. split; [reflexivity|]. split; [exact Hcentre|].
      split; [contradiction|]. intros _.
      split; [apply no_overflow; [lia | nia]|].
      eexists. split; [reflexivity|].
      apply (sum3_bound _ _ _ (2 * D) (3 * D + 9) (2 * (D * D))).
      * apply div_abs_bound; assumption.
      * apply div_abs_bound; assumption.
      * apply div_abs_bound; [lia | assumption].
      * nia.
Qed.

(** The amended C6 at the centre and at a corner of a 3x3 board. *)
Lemma custom_score_values_witness :
  custom_score centre_board true = Val PosInf /\
  exists q, custom_score corner_board true = Val (Fin q) /\
            (inject (- 2 ^ 108) <= q)%Qc /\ (q <= inject (2 ^ 108))%Qc.
Proof.
  split.
  - destruct (custom_score_values centre_board true) as (_ & _ & H).
    destruct (H (eq_refl false) (eq_refl false) (1, 1) 2 1 7 0
                (eq_refl (Some (1, 1))) eq_refl eq_refl eq_refl eq_refl)
      as (_ & _ & s & E & _ & Hc & _);
      try discriminate.
    rewrite E. f_equal. apply Hc. reflexivity.
  - destruct (custom_score_values corner_board true) as (_ & _ & H).
    destruct (H (eq_refl false) (eq_refl false) (0, 0) 2 1 7 2
                (eq_refl (Some (0, 0))) eq_refl eq_refl eq_refl eq_refl)
      as (_ & _ & s & E & _ & _ & Hf);
      try discriminate.
    destruct Hf as (_ & q & -> & Lq & Uq); [discriminate|].
    exists q. split; [exact E|]. split; [exact Lq | exact Uq].
Defined.

(** C6 as stated fails: a player standing on the centre cell that has
    neither won nor lost is given [+inf]. *)
Lemma custom_score_infinite_at_centre :
  is_loser centre_board true = false /\
  is_winner centre_board true = false /\
  custom_score centre_board true = Val PosInf.
Proof. repeat split. Qed.

(** C10.  There is a state in which the perspective player has neither won
    nor lost and has no location yet on which [custom_score] returns no
    score: the positional term raises TypeError, and so does a search that
    evaluates that state with it. *)
Theorem custom_score_unplaced_raises :
  exists g : tree,
    is_loser g true = false /\
    is_winner g true = false /\
    get_player_location g true = None /\
    custom_score g true = Exn TypeError /\
    minimax (custom_player false "minimax" 10) clock_forever g 0 true 0%nat
    = Raise TypeError.
Proof. exists unplaced_board. repeat split. Qed.

(** ** The running best *)



(** ** Pruning does not change the score *)

(** Whatever the clocks, a plain and a pruned search of the same position
    that both return have computed the reference value. *)
Lemma search_scores_agree
      {game player : Type} `{B : Board game player}
      (self : CustomPlayer) (tl1 tl2 : nat -> Q) (g : game) (depth : nat)
      (mp : bool) (t1 t2 t1' t2' : nat) (x y : score * move) :
  minimax self tl1 g depth mp t1 = Ret x t1' ->
  alphabeta self tl2 g depth NegInf PosInf mp t2 = Ret y t2' ->
  fst x = minimax_value (sv self) mp depth g /\
  fst y = minimax_value (sv self) mp depth g.
Proof.
  unfold minimax, alphabeta. intros H1 H2.
  apply bind_Ret in H1 as (? & ? & _ & H1).
  apply bind_Ret in H2 as (? & ? & _ & H2).
  destruct (search_value self tl1 depth g) as (P1 & P2 & _ & _).
  destruct (search_value self tl2 depth g) as (_ & _ & P3 & P4).
  assert (score_lt NegInf PosInf) as Hw by reflexivity.
  destruct mp.
  - split; [eapply P1; eassumption|].
    apply within_full. eapply P3; eassumption.
  - split; [eapply P2; eassumption|].
    apply within_full. eapply P4; eassumption.
Qed.

(** C4.  With an evaluation function that returns a score on every state
    and clocks that never run low, [minimax] and [alphabeta] (started with
    the bounds [-inf], [+inf]) both return, and with the same score: the
    minimax value of the position at that depth. *)
Theorem alphabeta_minimax_same_score
        {game player : Type} `{B : Board game player}
        (self : CustomPlayer) (tl1 tl2 : nat -> Q) (g : game) (depth : nat)
        (mp : bool) (t1 t2 : nat) :
  (forall g', exists s, score_fn self g' = Val s) ->
  (forall t, alive self tl1 t) ->
  (forall t, alive self tl2 t) ->
  exists s m1 m2 t1' t2',
    minimax self tl1 g depth mp t1 = Ret (s, m1) t1' /\
    alphabeta self tl2 g depth NegInf PosInf mp t2 = Ret (s, m2) t2' /\
    s = minimax_value (sv self) mp depth g.
Proof.
  intros Htot Ha1 Ha2.
  destruct (returns_minimax self tl1 Htot Ha1 g depth mp t1)
    as ([s1 m1] & t1' & E1).
  destruct (returns_alphabeta self tl2 Htot Ha2 g depth NegInf PosInf mp t2)
    as ([s2 m2] & t2' & E2).
  destruct (search_scores_agree self tl1 tl2 g depth mp _ _ _ _ _ _ E1 E2)
    as [X Y]. simpl in X, Y.
  exists s1, m1, m2, t1', t2'. repeat split; congruence.
Qed.

Lemma tree_player_total (depth : Z) (iter : bool) (meth : string) (thr : Q) :
  forall g', exists s, score_fn (tree_player depth iter meth thr) g' = Val s.
Proof. intros g'. exists (val_of g'). reflexivity. Defined.

Lemma clock_forever_alive (self : CustomPlayer (game := tree)) :
  TIMER_THRESHOLD self = 10%Q -> forall t, alive self clock_forever t.
Proof. intros E t. unfold alive. rewrite E. reflexivity. Defined.

(** C4 on [fork_tree] at depth 3. *)
Lemma alphabeta_minimax_same_score_witness :
  let P := tree_player 3 false "minimax" 10 in
  exists s m1 m2 t1' t2',
    minimax P clock_forever fork_tree 3 true 0%nat = Ret (s, m1) t1' /\
    alphabeta P clock_forever fork_tree 3 NegInf PosInf true 0%nat
    = Ret (s, m2) t2' /\
    s = minimax_value (sv P) true 3 fork_tree.
Proof.
  intros P.
  apply (alphabeta_minimax_same_score P clock_forever clock_forever
           fork_tree 3 true 0%nat 0%nat).
  - apply tree_player_total.
  - apply clock_forever_alive. reflexivity.
  - apply clock_forever_alive. reflexivity.
Defined.

(** ** The entry checks of [get_move] *)

(** C7 (as amended).  With the clock not below the threshold at entry,
    [get_move] on an empty list of legal moves returns [(-1, -1)] at once,
    whatever the state and the configuration. *)
Theorem get_move_no_legal_moves
        {game player : Type} `{B : Board game player}
        (self : CustomPlayer) (time_left : nat -> Q) (g : game)
        (rnd fuel : nat) :
  alive self time_left 0%nat ->
  get_move self time_left fuel g [] rnd = Some (Val sentinel).
Proof. intros H. now rewrite get_move_alive. Qed.

Lemma get_move_no_legal_moves_witness :
  alive (tree_player 3 true "alphabeta" 10) clock_forever 0%nat /\
  get_move (tree_player 3 true "alphabeta" 10) clock_forever 0
           (leaf 9 NegInf) [] 0 = Some (Val (-1, -1)).
Proof.
  split; [reflexivity|].
  apply (get_move_no_legal_moves (tree_player 3 true "alphabeta" 10)
           clock_forever (leaf 9 NegInf) 0 0).
  reflexivity.
Defined.

(** C7 as stated fails: the clock is examined before the list of legal
    moves, so a call with no legal moves and no time left raises. *)
Lemma get_move_no_moves_expired :
  get_move (tree_player 3 true "alphabeta" 10) (clock_until 0) 1
           (leaf 9 NegInf) [] 0 = Some (Exn Timeout).
Proof. reflexivity. Qed.

Lemma py_floor_half_exact (x : Z) :
  Z.abs x <= exact_int_bound -> py_floor_half x = Val (x / 2).
Proof.
  intros H. unfold py_floor_half, true_div_overflows.
  assert (exact_int_bound < 2 ^ 1024 - 2 ^ 970) as Hb by reflexivity.
  destruct (Z.leb_spec ((2 ^ 1024 - 2 ^ 970) * Z.abs 2) (Z.abs x)) as [L|_].
  - change (Z.abs 2) with 2 in L. lia.
  - destruct (Z.leb_spec (Z.abs x) exact_int_bound); [reflexivity | lia].
Qed.

(** Above [exact_int_bound] the floats and floor division part ways, and
    far enough above the code raises. *)
Lemma py_floor_half_beyond :
  py_floor_half (2 ^ 53 + 3) = Val (2 ^ 52 + 2) /\
  (2 ^ 53 + 3) / 2 = 2 ^ 52 + 1 /\
  py_floor_half (2 ^ 1025) = Exn OverflowError.
Proof. repeat split. Qed.

(** C2 (as amended).  With the clock not below the threshold at entry and
    at least one legal move, [get_move] on a state whose move count is 1
    and whose height and width do not exceed [2^53] in magnitude returns
    [(height // 2, width // 2)] without searching, whatever the
    evaluation function; this is the value of
    [math.floor(game.height / 2), math.floor(game.width / 2)] computed
    through the floats.  On a 3x3 board it is [(1, 1)]. *)
Theorem get_move_opening_move
        {game player : Type} `{B : Board game player}
        (self : CustomPlayer) (time_left : nat -> Q) (g : game)
        (legal_moves : list move) (rnd fuel : nat) :
  alive self time_left 0%nat ->
  legal_moves <> [] ->
  move_count g = 1 ->
  Z.abs (height g) <= exact_int_bound ->
  Z.abs (width g) <= exact_int_bound ->
  get_move self time_left fuel g legal_moves rnd
  = Some (Val (height g / 2, width g / 2)) /\
  py_floor_half (height g) = Val (height g / 2) /\
  py_floor_half (width g) = Val (width g / 2) /\
  (height g = 3 -> width g = 3 ->
   get_move self time_left fuel g legal_moves rnd = Some (Val (1, 1))).
Proof.
  intros Ha Hl Hm Hh Hw. rewrite get_move_alive by exact Ha.
  destruct legal_moves as [|m l]; [congruence|].
  rewrite Hm. simpl. split; [reflexivity|].
  split; [now apply py_floor_half_exact|].
  split; [now apply py_floor_half_exact|].
  intros -> ->. reflexivity.
Qed.

Lemma get_move_opening_move_witness :
  get_move (tree_player 3 true "minimax" 10) clock_forever 0
           (second_move_board3 PosInf) cells3 4 = Some (Val (1, 1)) /\
  py_floor_half (height (second_move_board3 PosInf)) = Val 1 /\
  py_floor_half (width (second_move_board3 PosInf)) = Val 1.
Proof.
  destruct (get_move_opening_move (tree_player 3 true "minimax" 10)
              clock_forever (second_move_board3 PosInf) cells3 4 0)
    as (E & Hh & Hw & _).
  - reflexivity.
  - discriminate.
  - reflexivity.
  - discriminate.
  - discriminate.
  - split; [exact E | split; [exact Hh | exact Hw]].
Defined.

(** C2 as stated fails: on the empty 3x3 board with move count 0 the
    opening test [move_count == 1] is false and the move is searched for;
    with a constant evaluation function the search settles on [(2, 2)]. *)
Lemma get_move_first_move_searches :
  move_count (empty_board3 (fin 0)) = 0 /\
  get_move (tree_player 3 false "minimax" 10) clock_forever 1
           (empty_board3 (fin 0)) cells3 0 = Some (Val (2, 2)).
Proof. split; reflexivity. Qed.

(** ** Timeouts *)





(** ** Iterative deepening *)

(** Each entry of a run of completed rounds is the result of a search at
    the corresponding depth. *)
Lemma completed_nth
      {game player : Type} `{B : Board game player}
      (self : CustomPlayer) (time_left : nat -> Q) (g : game) (n : nat) :
  forall depth t xs t',
    completed self time_left g n depth t = Some (xs, t') ->
    forall k x, nth_error xs k = Some x ->
      exists tk tk',
        search_method self time_left g (k + depth) tk = Ret x tk'.
Proof.
  induction n as [|n IH]; intros depth t xs t' H k x Hk; simpl in H.
  - injection H as <- _. destruct k; discriminate.
  - destruct (bind _ _ t) as [x0 t1|e] eqn:E0; [|discriminate].
    destruct (completed self time_left g n (S depth) t1) as [[ys t2]|] eqn:E;
      [|discriminate].
    injection H as <- _. destruct k as [|k]; simpl in Hk.
    + injection Hk as <-. apply bind_Ret in E0 as (? & tk & _ & E0).
      exists tk, t1. exact E0.
    + destruct (IH _ _ _ _ E k x Hk) as (tk & tk' & Hs).
      exists tk, tk'. rewrite <- Hs. f_equal. lia.
Qed.

(** C3 (as amended).  In an iterative-deepening run whose rounds at depths
    1..n complete and whose round at depth n+1 is interrupted by
    [Timeout], the interrupted round contributes nothing: [get_move]
    returns the move of the accumulator, obtained by folding the update
    [if score > best_score] over the results of the completed rounds,
    starting from [-inf] and the randomly drawn legal move.  Each of these
    results is what a completed search at that depth returns under any
    clock. *)
Theorem get_move_interrupted_accumulator
        {game player : Type} `{B : Board game player}
        (self : CustomPlayer) (time_left : nat -> Q) (g : game)
        (legal_moves : list move) (rnd fuel n t' : nat)
        (xs : list (score * move)) :
  iterative self = true ->
  alive self time_left 0%nat ->
  legal_moves <> [] ->
  move_count g <> 1 ->
  completed self time_left g n 1 1 = Some (xs, t') ->
  bind (check_time self time_left)
       (fun _ => search_method self time_left g (S n)) t' = Raise Timeout ->
  (n < fuel)%nat ->
  get_move self time_left fuel g legal_moves rnd
  = Some (Val (snd (fold_left accumulate xs
                              (NegInf, nth rnd legal_moves sentinel)))) /\
  (forall k x, nth_error xs k = Some x ->
     forall tl t y t'',
       search_method self tl g (S k) t = Ret y t'' -> y = x).
Proof.
  intros Hit Ha Hl Hm Hc Hraise Hf. split.
  - rewrite get_move_alive by exact Ha.
    destruct legal_moves as [|m l]; [congruence|].
    destruct (Z.eqb_spec (move_count g) 1) as [E|_]; [contradiction|].
    replace fuel with (n + S (fuel - n - 1))%nat by lia.
    rewrite (deepening_completed self time_left g Hit n 1 1 xs t'
               (NegInf, nth rnd (m :: l) sentinel) _ Hc).
    replace (n + 1)%nat with (S n) by lia.
    now apply deepening_interrupted.
  - intros k x Hk tl t y t'' Hy.
    destruct (completed_nth self time_left g n _ _ _ _ Hc k x Hk)
      as (tk & tk' & Hs).
    replace (k + 1)%nat with (S k) in Hs by lia.
    exact (agree_search_method self tl time_left g (S k) _ _ _ _ _ _ Hy Hs).
Qed.

(** The amended C3 on [fork_tree]: the clock runs low during the third
    round. *)
Lemma get_move_interrupted_accumulator_witness :
  let P := tree_player 3 true "minimax" 10 in
  get_move P (clock_until 25) 3 fork_tree [(0, 0); (0, 1)] 1
  = Some (Val (snd (fold_left accumulate
                              [(fin 5, (0, 0)); (fin 4, (0, 1))]
                              (NegInf, (0, 1))))).
Proof.
  intros P.
  apply (get_move_interrupted_accumulator P (clock_until 25) fork_tree
           [(0, 0); (0, 1)] 1 3 2 19
           [(fin 5, (0, 0)); (fin 4, (0, 1))]).
  - reflexivity.
  - reflexivity.
  - discriminate.
  - discriminate.
  - reflexivity.
  - reflexivity.
  - lia.
Defined.

(** C3 as stated fails: on [fork_tree] the rounds at depths 1 and 2
    complete and the clock runs low during depth 3; the completed depth-2
    search chose [(0, 1)] with score 4, yet [get_move] returns [(0, 0)],
    the move kept from depth 1 whose score 5 was higher. *)
Lemma get_move_interrupted_keeps_shallower :
  let P := tree_player 3 true "minimax" 10 in
  completed P (clock_until 25) fork_tree 2 1 1
  = Some ([(fin 5, (0, 0)); (fin 4, (0, 1))], 19%nat) /\
  bind (check_time P (clock_until 25))
       (fun _ => search_method P (clock_until 25) fork_tree 3) 19%nat
  = Raise Timeout /\
  minimax (tree_player 2 false "minimax" 10) clock_forever fork_tree 2 true
          0%nat = Ret (fin 4, (0, 1)) 10%nat /\
  get_move P (clock_until 25) 3 fork_tree [(0, 0); (0, 1)] 1
  = Some (Val (0, 0)).
Proof. repeat split. Qed.

(** ** Determinism and the random fallback *)




(** ** Fixed-depth mode *)

(** C9: the code departs from the claim.  Configured with
    [search_depth = 2] and [iterative = False], [get_move] on [fork_tree]
    returns [(0, 0)], the move of a depth-1 search, where a search at the
    configured depth 2 chooses [(0, 1)]; any other [search_depth] gives the
    same answer. *)
Theorem get_move_ignores_search_depth :
  let P := tree_player 2 false "minimax" 10 in
  get_move P clock_forever 1 fork_tree [(0, 0); (0, 1)] 0
  = Some (Val (0, 0)) /\
  minimax P clock_forever fork_tree 1 true 0%nat
  = Ret (fin 5, (0, 0)) 6%nat /\
  minimax P clock_forever fork_tree 2 true 0%nat
  = Ret (fin 4, (0, 1)) 10%nat /\
  (forall sd fuel,
      get_move (tree_player sd false "minimax" 10) clock_forever (S fuel)
               fork_tree [(0, 0); (0, 1)] 0
      = Some (Val (0, 0))).
Proof. repeat split. Qed.

(** * Further properties *)

(** ** The heuristics *)



(** X2.  On a state that is neither won nor lost and has no cell left
    ([width * height = move_count]), [custom_score] raises
    ZeroDivisionError, whether or not the player has a location. *)
Theorem custom_score_full_board
        {game player : Type} `{B : Board game player}
        (g : game) (p : player) :
  is_loser g p = false -> is_winner g p = false ->
  width g * height g = move_count g ->
  custom_score g p = Exn ZeroDivisionError.
Proof.
  intros Hl Hw Hfull. unfold custom_score. rewrite Hl, Hw.
  unfold lecture_heuristic_improved, true_div.
  replace (width g * height g - move_count g) with 0 by lia. reflexivity.
Qed.

Lemma custom_score_full_board_witness :
  custom_score full_board true = Exn ZeroDivisionError.
Proof.
  apply (custom_score_full_board full_board true); reflexivity.
Defined.



(** X4.  [endgame_heuristic] never returns a count other than 0: it
    returns 0 when the player has no legal move and otherwise raises
    TypeError at the first [count += <list of moves>]. *)
Theorem endgame_heuristic_cases
        {game player : Type} `{B : Board game player}
        (g : game) (p : player) :
  (get_legal_moves g (Some p) = [] -> endgame_heuristic g p = Val 0) /\
  (get_legal_moves g (Some p) <> [] ->
   endgame_heuristic g p = Exn TypeError) /\
  (forall count, endgame_heuristic g p = Val count -> count = 0).
Proof.
  unfold endgame_heuristic.
  destruct (get_legal_moves g (Some p)) as [|m l]; simpl.
  - repeat split; congruence.
  - repeat split; congruence.
Qed.

Lemma endgame_heuristic_cases_witness :
  endgame_heuristic unplaced_board true = Val 0 /\
  endgame_heuristic corner_board true = Exn TypeError.
Proof.
  split.
  - apply (proj1 (endgame_heuristic_cases unplaced_board true)).
    reflexivity.
  - apply (proj1 (proj2 (endgame_heuristic_cases corner_board true))).
    discriminate.
Defined.

(** X5.  [lecture_heuristic] is antisymmetric: exchanging the two
    mobilities negates the score; and it is non-negative exactly when the
    player has at least as many moves as the opponent. *)
Theorem lecture_heuristic_antisymmetric (own_moves opp_moves : Z) :
  lecture_heuristic own_moves opp_moves
  = (- lecture_heuristic opp_moves own_moves)%Qc /\
  (opp_moves <= own_moves <->
   (0 <= lecture_heuristic own_moves opp_moves)%Qc).
Proof.
  unfold lecture_heuristic, inject. split.
  - apply Qc_is_canon.
    change (Qred (inject_Z (own_moves - opp_moves))
            == Qred (- Qred (inject_Z (opp_moves - own_moves))))%Q.
    rewrite !Qred_correct. unfold Qeq, inject_Z. simpl. lia.
  - change (opp_moves <= own_moves
            <-> (0 <= Qred (inject_Z (own_moves - opp_moves)))%Q).
    rewrite Qred_correct. unfold Qle, inject_Z. simpl. lia.
Qed.

(** ** Properties closed under the shape of the searches *)

Section Closure.
Context {game player : Type} `{B : Board game player}.
Variable self : CustomPlayer (game := game).
Variable time_left : nat -> Q.
Variable Inv : forall A : Type, M A -> Prop.
Hypothesis Inv_ret : forall A (a : A), Inv _ (ret a).
Hypothesis Inv_bind :
  forall A C (m : M A) (f : A -> M C),
    Inv _ m -> (forall a, Inv _ (f a)) -> Inv _ (bind m f).
Hypothesis Inv_check : Inv _ (check_time self time_left).
Hypothesis Inv_score : forall g, Inv _ (lift (score_fn self g)).

Lemma closed_utility (g : game) : Inv _ (utility self g).
Proof. unfold utility. apply Inv_bind; [apply Inv_score | intros; apply Inv_ret]. Qed.

Lemma closed_max_loop child g moves :
  (forall g', Inv _ (child g')) ->
  forall acc, Inv _ (max_loop self time_left child g moves acc).
Proof.
  intros Hc. induction moves as [|mv rest IH]; intros acc; cbn [max_loop].
  - apply Inv_ret.
  - apply Inv_bind; [apply Inv_check | intros _].
    apply Inv_bind; [apply Hc | intros r; apply IH].
Qed.

Lemma closed_min_loop child g moves :
  (forall g', Inv _ (child g')) ->
  forall acc, Inv _ (min_loop self time_left child g moves acc).
Proof.
  intros Hc. induction moves as [|mv rest IH]; intros acc; cbn [min_loop].
  - apply Inv_ret.
  - apply Inv_bind; [apply Inv_check | intros _].
    apply Inv_bind; [apply Hc | intros r; apply IH].
Qed.

Lemma closed_max_loop_prune child g moves :
  (forall a b g', Inv _ (child a b g')) ->
  forall acc a b, Inv _ (max_loop_prune self time_left child g moves acc a b).
Proof.
  intros Hc. induction moves as [|mv rest IH]; intros acc a b;
    cbn [max_loop_prune].
  - apply Inv_ret.
  - apply Inv_bind; [apply Inv_check | intros _].
    apply Inv_bind; [apply Hc | intros r].
    destruct (score_geb _ b); [apply Inv_ret | apply IH].
Qed.

Lemma closed_min_loop_prune child g moves :
  (forall a b g', Inv _ (child a b g')) ->
  forall acc a b, Inv _ (min_loop_prune self time_left child g moves acc a b).
Proof.
  intros Hc. induction moves as [|mv rest IH]; intros acc a b;
    cbn [min_loop_prune].
  - apply Inv_ret.
  - apply Inv_bind; [apply Inv_check | intros _].
    apply Inv_bind; [apply Hc | intros r].
    destruct (score_leb _ a); [apply Inv_ret | apply IH].
Qed.

Lemma closed_search (d : nat) :
  forall g p a b,
    Inv _ (max_value self time_left d g p a b) /\
    Inv _ (min_value self time_left d g p a b).
Proof.
  induction d as [|d IH]; intros g p a b; cbn [max_value min_value].
  - split; (apply Inv_bind; [apply Inv_check | intros _]); apply closed_utility.
  - split; (apply Inv_bind; [apply Inv_check | intros _]);
      (destruct (get_legal_moves g None) as [|m l]; [apply closed_utility|]);
      destruct p; cbn [negb].
    + apply closed_max_loop_prune. intros; apply IH.
    + apply closed_max_loop. intros; apply IH.
    + apply closed_min_loop_prune. intros; apply IH.
    + apply closed_min_loop. intros; apply IH.
Qed.

Lemma closed_minimax (g : game) (depth : nat) (mp : bool) :
  Inv _ (minimax self time_left g depth mp).
Proof.
  unfold minimax. apply Inv_bind; [apply Inv_check | intros _].
  destruct mp; apply closed_search.
Qed.

Lemma closed_alphabeta (g : game) (depth : nat) (a b : score) (mp : bool) :
  Inv _ (alphabeta self time_left g depth a b mp).
Proof.
  unfold alphabeta. apply Inv_bind; [apply Inv_check | intros _].
  destruct mp; apply closed_search.
Qed.

Lemma closed_search_method (g : game) (depth : nat) :
  Inv _ (search_method self time_left g depth).
Proof.
  unfold search_method.
  destruct (String.eqb (method self) "minimax");
    [apply closed_minimax | apply closed_alphabeta].
Qed.

End Closure.

(** ** The clock discipline of the searches *)

Section ClockDiscipline.
Context {game player : Type} `{B : Board game player}.
Variable self : CustomPlayer (game := game).
Variable time_left : nat -> Q.

Lemma reads_only_ret {A} (P : nat -> Prop) (a : A) : reads_only P (ret a).
Proof.
  intros t x t' H. injection H as _ <-. split; [lia|]. intros k Hk. lia.
Qed.

Lemma reads_only_bind {A C} (P : nat -> Prop) (m : M A) (f : A -> M C) :
  reads_only P m -> (forall a, reads_only P (f a)) -> reads_only P (bind m f).
Proof.
  intros Hm Hf t x t' H. apply bind_Ret in H as (a & t1 & H1 & H2).
  destruct (Hm _ _ _ H1) as [L1 R1]. destruct (Hf a _ _ _ H2) as [L2 R2].
  split; [lia|]. intros k Hk.
  destruct (Nat.lt_ge_cases k t1); [apply R1 | apply R2]; lia.
Qed.

Lemma reads_only_check_time :
  reads_only (alive self time_left) (check_time self time_left).
Proof.
  intros t x t' H. apply check_time_Ret in H as [-> Ha]. split; [lia|].
  intros k Hk. replace k with t by lia. exact Ha.
Qed.

Lemma reads_only_lift {A} (P : nat -> Prop) (p : py A) :
  reads_only P (lift p).
Proof.
  intros t x t' H. unfold lift in H. destruct p; [|discriminate].
  injection H as _ <-. split; [lia|]. intros k Hk. lia.
Qed.

Lemma reads_only_search_method (g : game) (depth : nat) :
  reads_only (alive self time_left) (search_method self time_left g depth).
Proof.
  apply (closed_search_method self time_left
           (fun A => reads_only (alive self time_left))).
  - intros. apply reads_only_ret.
  - intros. now apply reads_only_bind.
  - apply reads_only_check_time.
  - intros. apply reads_only_lift.
Qed.

Lemma reads_only_minimax (g : game) (depth : nat) (mp : bool) :
  reads_only (alive self time_left) (minimax self time_left g depth mp).
Proof.
  apply (closed_minimax self time_left
           (fun A => reads_only (alive self time_left))).
  - intros. apply reads_only_ret.
  - intros. now apply reads_only_bind.
  - apply reads_only_check_time.
  - intros. apply reads_only_lift.
Qed.

Lemma reads_only_alphabeta (g : game) (depth : nat) (a b : score) (mp : bool) :
  reads_only (alive self time_left) (alphabeta self time_left g depth a b mp).
Proof.
  apply (closed_alphabeta self time_left
           (fun A => reads_only (alive self time_left))).
  - intros. apply reads_only_ret.
  - intros. now apply reads_only_bind.
  - apply reads_only_check_time.
  - intros. apply reads_only_lift.
Qed.





Lemma returns_search_method :
  (forall g', exists s, score_fn self g' = Val s) ->
  (forall t, alive self time_left t) ->
  forall g depth, returns (search_method self time_left g depth).
Proof.
  intros Htot Ha g depth. unfold search_method.
  destruct (String.eqb (method self) "minimax").
  - now apply returns_minimax.
  - now apply returns_alphabeta.
Qed.

Lemma deepening_runs_on (g : game) :
  iterative self = true ->
  (forall g', exists s, score_fn self g' = Val s) ->
  (forall t, alive self time_left t) ->
  forall fuel depth bs bm t,
    deepening self time_left fuel g depth bs bm t = None.
Proof.
  intros Hit Htot Ha. induction fuel as [|fuel IH]; intros depth bs bm t;
    [reflexivity|].
  cbn [deepening]. unfold bind at 1.
  rewrite (check_time_alive _ _ _ (Ha t)).
  destruct (returns_search_method Htot Ha g depth (S t)) as ([s m] & t' & ->).
  rewrite Hit. cbn [negb]. apply IH.
Qed.

End ClockDiscipline.

(** X6.  A search that returns has read the clock at least once, and every
    reading it took was at or above the threshold; so once the clock has
    dropped below the threshold for good at its N-th reading, no search
    returns after taking more than N readings. *)
Theorem search_reads_alive
        {game player : Type} `{B : Board game player}
        (self : CustomPlayer) (time_left : nat -> Q) (g : game)
        (depth : nat) (a b : score) (mp : bool) (t t' : nat)
        (x : score * move) :
  minimax self time_left g depth mp t = Ret x t' \/
  alphabeta self time_left g depth a b mp t = Ret x t' ->
  (t < t')%nat /\
  (forall k, (t <= k < t')%nat -> alive self time_left k) /\
  (forall N, (forall k, (N <= k)%nat -> ~ alive self time_left k) ->
             (t' <= N)%nat).
Proof.
  intros H.
  assert ((t <= t')%nat /\
          forall k, (t <= k < t')%nat -> alive self time_left k) as [L R].
  { destruct H as [H|H].
    - exact (reads_only_minimax self time_left g depth mp _ _ _ H).
    - exact (reads_only_alphabeta self time_left g depth a b mp _ _ _ H). }
  assert (t < t')%nat as Hlt.
  { destruct H as [H|H]; unfold minimax, alphabeta in H;
      apply bind_Ret in H as (u & t1 & Hc & H);
      apply check_time_Ret in Hc as [-> _].
    - destruct mp;
        destruct (closed_search self time_left
                    (fun A => reads_only (alive self time_left))
                    (fun A a0 => reads_only_ret _ a0)
                    (fun A C m f => reads_only_bind _ m f)
                    (reads_only_check_time self time_left)
                    (fun g0 => reads_only_lift _ _)
                    depth g false NegInf PosInf) as [X Y].
      + destruct (X _ _ _ H). lia.
      + destruct (Y _ _ _ H). lia.
    - destruct mp;
        destruct (closed_search self time_left
                    (fun A => reads_only (alive self time_left))
                    (fun A a0 => reads_only_ret _ a0)
                    (fun A C m f => reads_only_bind _ m f)
                    (reads_only_check_time self time_left)
                    (fun g0 => reads_only_lift _ _)
                    depth g true a b) as [X Y].
      + destruct (X _ _ _ H). lia.
      + destruct (Y _ _ _ H). lia. }
  split; [exact Hlt|]. split; [exact R|].
  intros N HN. destruct (Nat.le_gt_cases t' N) as [Hle|Hgt]; [exact Hle|].
  exfalso. apply (HN (t' - 1)%nat); [lia|]. apply R. lia.
Qed.

Lemma search_reads_alive_witness :
  let P := tree_player 3 true "minimax" 10 in
  (0 < 10)%nat /\
  (forall k, (0 <= k < 10)%nat -> alive P (clock_until 25) k) /\
  (forall N, (forall k, (N <= k)%nat -> ~ alive P (clock_until 25) k) ->
             (10 <= N)%nat).
Proof.
  intros P.
  apply (search_reads_alive P (clock_until 25) fork_tree 2 NegInf PosInf
           true 0 10 (fin 4, (0, 1))).
  left. reflexivity.
Defined.

(** ** What [get_move] raises, and when it does not return *)



(** X8.  In iterative mode the loop has no bound on the depth: with an
    evaluation function that always returns and a clock that never drops
    below the threshold, [get_move] past its entry checks never returns,
    however many rounds it is given. *)
Theorem get_move_iterative_runs_on
        {game player : Type} `{B : Board game player}
        (self : CustomPlayer) (time_left : nat -> Q) (g : game)
        (legal_moves : list move) (rnd : nat) :
  iterative self = true ->
  (forall g', exists s, score_fn self g' = Val s) ->
  (forall t, alive self time_left t) ->
  legal_moves <> [] ->
  move_count g <> 1 ->
  forall fuel, get_move self time_left fuel g legal_moves rnd = None.
Proof.
  intros Hit Htot Ha Hl Hm fuel. rewrite get_move_alive by apply Ha.
  destruct legal_moves as [|m l]; [congruence|].
  destruct (Z.eqb_spec (move_count g) 1); [contradiction|].
  now apply deepening_runs_on.
Qed.

Lemma get_move_iterative_runs_on_witness :
  get_move (tree_player 3 true "alphabeta" 10) clock_forever 6 fork_tree
           [(0, 0); (0, 1)] 0 = None.
Proof.
  apply (get_move_iterative_runs_on (tree_player 3 true "alphabeta" 10)
           clock_forever fork_tree [(0, 0); (0, 1)] 0).
  - reflexivity.
  - apply tree_player_total.
  - apply clock_forever_alive. reflexivity.
  - discriminate.
  - discriminate.
Defined.

(** ** Which completed round wins *)

Lemma fold_accumulate_spec (xs : list (score * move)) :
  forall best,
    let r := fold_left accumulate xs best in
    (r = best /\ forall x, In x xs -> score_le (fst x) (fst best)) \/
    (exists k,
        nth_error xs k = Some r /\
        score_lt (fst best) (fst r) /\
        (forall j x, (j < k)%nat -> nth_error xs j = Some x ->
                     score_lt (fst x) (fst r)) /\
        (forall x, In x xs -> score_le (fst x) (fst r))).
Proof.
  induction xs as [|x xs IH]; intros best; simpl.
  - left. split; [reflexivity|]. intros x [].
  - unfold accumulate at 2 4 6 8 10.
    destruct (score_ltb (fst best) (fst x)) eqn:E; score_props.
    + destruct (IH x) as [[Hr Hall]|(k & Hk & Hlt & Hbefore & Hall)];
        cbv zeta in *.
      * right. exists 0%nat. rewrite Hr. simpl. repeat split.
        -- exact E.
        -- intros j y Hj. lia.
        -- intros y [<-|Hy]; [sorder | now apply Hall].
      * right. exists (S k). simpl. repeat split.
        -- exact Hk.
        -- sorder.
        -- intros [|j] y Hj Hy; simpl in Hy.
           ++ injection Hy as <-. exact Hlt.
           ++ apply (Hbefore j); [lia | exact Hy].
        -- intros y [<-|Hy]; [sorder | now apply Hall].
    + destruct (IH best) as [[Hr Hall]|(k & Hk & Hlt & Hbefore & Hall)];
        cbv zeta in *.
      * left. split; [exact Hr|].
        intros y [<-|Hy]; [sorder | now apply Hall].
      * right. exists (S k). simpl. repeat split.
        -- exact Hk.
        -- exact Hlt.
        -- intros [|j] y Hj Hy; simpl in Hy.
           ++ injection Hy as <-. sorder.
           ++ apply (Hbefore j); [lia | exact Hy].
        -- intros y [<-|Hy]; [sorder | now apply Hall].
Qed.

(** The answer of an interrupted iterative run, as a fold over the
    completed rounds. *)
Lemma get_move_interrupted
      {game player : Type} `{B : Board game player}
      (self : CustomPlayer) (time_left : nat -> Q) (g : game)
      (legal_moves : list move) (rnd fuel n t' : nat)
      (xs : list (score * move)) :
  iterative self = true ->
  alive self time_left 0%nat ->
  legal_moves <> [] ->
  move_count g <> 1 ->
  completed self time_left g n 1 1 = Some (xs, t') ->
  bind (check_time self time_left)
       (fun _ => search_method self time_left g (S n)) t' = Raise Timeout ->
  (n < fuel)%nat ->
  get_move self time_left fuel g legal_moves rnd
  = Some (Val (snd (fold_left accumulate xs
                              (NegInf, nth rnd legal_moves sentinel)))).
Proof.
  intros Hit Ha Hl Hm Hc Hraise Hf.
  rewrite get_move_alive by exact Ha.
  destruct legal_moves as [|m l]; [congruence|].
  destruct (Z.eqb_spec (move_count g) 1) as [E|_]; [contradiction|].
  replace fuel with (n + S (fuel - n - 1))%nat by lia.
  rewrite (deepening_completed self time_left g Hit n 1 1 xs t'
             (NegInf, nth rnd (m :: l) sentinel) _ Hc).
  replace (n + 1)%nat with (S n) by lia.
  now apply deepening_interrupted.
Qed.

(** X9.  When an iterative run is interrupted after its rounds at depths
    1..n completed, [get_move] returns either the randomly drawn legal
    move, and then every completed round scored [-inf] (or none
    completed); or the move of the shallowest completed round whose score
    is the greatest among the completed rounds, and then that score is
    above [-inf].  The two cases exclude each other. *)
Theorem get_move_keeps_shallowest_best
        {game player : Type} `{B : Board game player}
        (self : CustomPlayer) (time_left : nat -> Q) (g : game)
        (legal_moves : list move) (rnd fuel n t' : nat)
        (xs : list (score * move)) :
  iterative self = true ->
  alive self time_left 0%nat ->
  legal_moves <> [] ->
  move_count g <> 1 ->
  completed self time_left g n 1 1 = Some (xs, t') ->
  bind (check_time self time_left)
       (fun _ => search_method self time_left g (S n)) t' = Raise Timeout ->
  (n < fuel)%nat ->
  exists m,
    get_move self time_left fuel g legal_moves rnd = Some (Val m) /\
    ((m = nth rnd legal_moves sentinel /\
      forall x, In x xs -> fst x = NegInf) \/
     (exists k s,
         nth_error xs k = Some (s, m) /\
         score_lt NegInf s /\
         (forall x, In x xs -> score_le (fst x) s) /\
         (forall j x, (j < k)%nat -> nth_error xs j = Some x ->
                      score_lt (fst x) s))).
Proof.
  intros Hit Ha Hl Hm Hc Hraise Hf.
  rewrite (get_move_interrupted self time_left g legal_moves rnd fuel n t' xs)
    by assumption.
  eexists. split; [reflexivity|].
  destruct (fold_accumulate_spec xs (NegInf, nth rnd legal_moves sentinel))
    as [[Hr Hall]|(k & Hk & Hlt & Hbefore & Hall)]; cbv zeta in *.
  - left. rewrite Hr. split; [reflexivity|]. intros x Hx.
    specialize (Hall x Hx). simpl in Hall.
    destruct (fst x); try reflexivity; discriminate.
  - right.
    destruct (fold_left accumulate xs (NegInf, nth rnd legal_moves sentinel))
      as [s m]. exists k, s. simpl in *. auto.
Qed.

Lemma get_move_keeps_shallowest_best_witness :
  let P := tree_player 3 true "minimax" 10 in
  exists m,
    get_move P (clock_until 25) 3 fork_tree [(0, 0); (0, 1)] 1
    = Some (Val m) /\
    ((m = nth 1 [(0, 0); (0, 1)] sentinel /\
      forall x, In x [(fin 5, (0, 0)); (fin 4, (0, 1))] -> fst x = NegInf) \/
     (exists k s,
         nth_error [(fin 5, (0, 0)); (fin 4, (0, 1))] k = Some (s, m) /\
         score_lt NegInf s /\
         (forall x, In x [(fin 5, (0, 0)); (fin 4, (0, 1))] ->
                    score_le (fst x) s) /\
         (forall j x, (j < k)%nat ->
                      nth_error [(fin 5, (0, 0)); (fin 4, (0, 1))] j = Some x ->
                      score_lt (fst x) s))).
Proof.
  intros P.
  apply (get_move_keeps_shallowest_best P (clock_until 25) fork_tree
           [(0, 0); (0, 1)] 1 3 2 19
           [(fin 5, (0, 0)); (fin 4, (0, 1))]).
  - reflexivity.
  - reflexivity.
  - discriminate.
  - discriminate.
  - reflexivity.
  - reflexivity.
  - lia.
Defined.

(** ** The move a search returns *)

Lemma py_max_either (acc new : score * move) :
  py_max acc new = acc \/ py_max acc new = new.
Proof. unfold py_max. destruct (result_gtb new acc); auto. Qed.

Lemma py_min_either (acc new : score * move) :
  py_min acc new = acc \/ py_min acc new = new.
Proof. unfold py_min. destruct (result_ltb new acc); auto. Qed.

(** A first move with non-negative row displaces the initial
    [(-inf, (-1, -1))] of [max_value] whatever its score. *)
Lemma py_max_first (s : score) (mv : move) :
  0 <= fst mv -> py_max (NegInf, sentinel) (s, mv) = (s, mv).
Proof.
  intros H. apply (proj1 (py_max_cases _ _)). unfold displaces_max. simpl.
  destruct s; [right | left; reflexivity | left; reflexivity].
  split; [reflexivity|]. unfold lex_lt. simpl. lia.
Qed.

Section Choice.
Context {game player : Type} `{B : Board game player}.
Variable self : CustomPlayer (game := game).
Variable time_left : nat -> Q.

Lemma max_loop_choice child (f : game -> score) g moves :
  (forall g' t x t', child g' t = Ret x t' -> fst x = f g') ->
  forall acc t x t',
    max_loop self time_left child g moves acc t = Ret x t' ->
    x = acc \/
    (In (snd x) moves /\ fst x = f (forecast_move g (snd x))).
Proof.
  intros Hc. induction moves as [|mv rest IH]; intros acc t x t' H;
    cbn [max_loop] in H.
  - left. unfold ret in H. congruence.
  - apply bind_Ret in H as (? & ? & _ & H).
    apply bind_Ret in H as (r & ? & Hr & H).
    apply IH in H. destruct H as [->|[Hin Hv]].
    + destruct (py_max_either acc (fst r, mv)) as [->| ->]; [now left|].
      right. simpl. split; [now left|]. eapply Hc. exact Hr.
    + right. split; [now right | exact Hv].
Qed.

Lemma min_loop_choice child (f : game -> score) g moves :
  (forall g' t x t', child g' t = Ret x t' -> fst x = f g') ->
  forall acc t x t',
    min_loop self time_left child g moves acc t = Ret x t' ->
    x = acc \/
    (In (snd x) moves /\ fst x = f (forecast_move g (snd x))).
Proof.
  intros Hc. induction moves as [|mv rest IH]; intros acc t x t' H;
    cbn [min_loop] in H.
  - left. unfold ret in H. congruence.
  - apply bind_Ret in H as (? & ? & _ & H).
    apply bind_Ret in H as (r & ? & Hr & H).
    apply IH in H. destruct H as [->|[Hin Hv]].
    + destruct (py_min_either acc (fst r, mv)) as [->| ->]; [now left|].
      right. simpl. split; [now left|]. eapply Hc. exact Hr.
    + right. split; [now right | exact Hv].
Qed.

Lemma max_loop_prune_choice child g moves :
  forall acc a b t x t',
    max_loop_prune self time_left child g moves acc a b t = Ret x t' ->
    snd x = snd acc \/ In (snd x) moves.
Proof.
  induction moves as [|mv rest IH]; intros acc a b t x t' H;
    cbn [max_loop_prune] in H.
  - left. unfold ret in H. congruence.
  - apply bind_Ret in H as (? & ? & _ & H).
    apply bind_Ret in H as (r & ? & Hr & H).
    assert (snd (py_max acc (fst r, mv)) = snd acc \/
            snd (py_max acc (fst r, mv)) = mv) as Hs.
    { destruct (py_max_either acc (fst r, mv)) as [->| ->]; auto. }
    destruct (score_geb _ b).
    + unfold ret in H. injection H as <- _.
      destruct Hs as [->| ->]; [now left | right; now left].
    + apply IH in H. destruct H as [->|Hin]; [|right; now right].
      destruct Hs as [->| ->]; [now left | right; now left].
Qed.

(** Past depth 0, on a state whose first legal move has a non-negative
    row, [max_value] returns one of the legal moves. *)
Lemma max_value_move_legal (d : nat) (g : game) (p : bool) (a b : score)
      (t t' : nat) (x : score * move) :
  get_legal_moves g None <> [] ->
  (forall m, In m (get_legal_moves g None) -> 0 <= fst m /\ 0 <= snd m) ->
  max_value self time_left (S d) g p a b t = Ret x t' ->
  In (snd x) (get_legal_moves g None).
Proof.
  intros Hne Hpos H. cbn [max_value] in H.
  apply bind_Ret in H as (? & ? & _ & H).
  destruct (get_legal_moves g None) as [|mv rest]; [congruence|].
  assert (0 <= fst mv) as Hmv by (apply Hpos; now left).
  destruct p; cbn [negb] in H.
  - cbn [max_loop_prune] in H.
    apply bind_Ret in H as (? & ? & _ & H).
    apply bind_Ret in H as (r & ? & _ & H).
    rewrite (py_max_first _ _ Hmv) in H.
    destruct (score_geb _ b).
    + unfold ret in H. injection H as <- _. now left.
    + apply max_loop_prune_choice in H. simpl in H.
      destruct H as [->|Hin]; [now left | now right].
  - cbn [max_loop] in H.
    apply bind_Ret in H as (? & ? & _ & H).
    apply bind_Ret in H as (r & ? & _ & H).
    rewrite (py_max_first _ _ Hmv) in H.
    apply (max_loop_choice _ (minimax_value (sv self) false d)) in H.
    + destruct H as [->|[Hin _]]; [now left | now right].
    + intros g' ta xa ta' Ha.
      exact (proj1 (proj2 (search_value self time_left d g')) _ _ _ _ _ Ha).
Qed.

End Choice.

Lemma search_method_move_legal
      {game player : Type} `{B : Board game player}
      (self : CustomPlayer) (time_left : nat -> Q) (g : game) (d : nat)
      (t t' : nat) (x : score * move) :
  get_legal_moves g None <> [] ->
  (forall m, In m (get_legal_moves g None) -> 0 <= fst m /\ 0 <= snd m) ->
  search_method self time_left g (S d) t = Ret x t' ->
  In (snd x) (get_legal_moves g None).
Proof.
  intros Hne Hpos H. unfold search_method, minimax, alphabeta in H.
  destruct (String.eqb (method self) "minimax");
    apply bind_Ret in H as (? & ? & _ & H);
    eapply max_value_move_legal; eassumption.
Qed.

Lemma deepening_move_legal
      {game player : Type} `{B : Board game player}
      (self : CustomPlayer) (time_left : nat -> Q) (g : game) :
  get_legal_moves g None <> [] ->
  (forall m, In m (get_legal_moves g None) -> 0 <= fst m /\ 0 <= snd m) ->
  forall fuel depth bs bm t m,
    In bm (get_legal_moves g None) ->
    deepening self time_left fuel g (S depth) bs bm t = Some (Val m) ->
    In m (get_legal_moves g None).
Proof.
  intros Hne Hpos. induction fuel as [|fuel IH];
    intros depth bs bm t m Hbm H; [discriminate|].
  cbn [deepening] in H.
  destruct (bind _ _ t) as [[s mv] t'|e] eqn:E.
  - apply bind_Ret in E as (? & ? & _ & E).
    apply (search_method_move_legal self time_left g depth _ _ _ Hne Hpos)
      in E. simpl in E.
    assert (In (snd (if score_ltb bs s then (s, mv) else (bs, bm)))
               (get_legal_moves g None)) as Hbest.
    { destruct (score_ltb bs s); simpl; assumption. }
    destruct (iterative self); cbn [negb] in H.
    + eapply IH; [exact Hbest | exact H].
    + injection H as <-. exact Hbest.
  - destruct e; try discriminate. injection H as <-. exact Hbm.
Qed.

(** X10.  Called with the state's own list of legal moves, all of
    non-negative coordinates, and past the opening move
    ([move_count <> 1]), [get_move] only ever returns one of these legal
    moves: the randomly drawn one or the choice of a completed search. *)
Theorem get_move_returns_legal_move
        {game player : Type} `{B : Board game player}
        (self : CustomPlayer) (time_left : nat -> Q) (g : game)
        (legal_moves : list move) (rnd fuel : nat) (m : move) :
  get_legal_moves g None = legal_moves ->
  legal_moves <> [] ->
  (forall m', In m' legal_moves -> 0 <= fst m' /\ 0 <= snd m') ->
  move_count g <> 1 ->
  (rnd < List.length legal_moves)%nat ->
  get_move self time_left fuel g legal_moves rnd = Some (Val m) ->
  In m legal_moves.
Proof.
  intros Hlm Hne Hpos Hmc Hrnd H. unfold get_move in H.
  destruct (check_time self time_left 0%nat) as [u t|e]; [|discriminate].
  destruct legal_moves as [|m0 l] eqn:El; [congruence|].
  destruct (Z.eqb_spec (move_count g) 1); [contradiction|].
  rewrite <- El in *. rewrite <- Hlm in *.
  eapply (deepening_move_legal self time_left g); try eassumption.
  apply nth_In. exact Hrnd.
Qed.

Lemma get_move_returns_legal_move_witness :
  In (0, 0) [(0, 0); (0, 1)].
Proof.
  apply (get_move_returns_legal_move (tree_player 3 true "alphabeta" 10)
           (clock_until 25) fork_tree [(0, 0); (0, 1)] 1 5 (0, 0)).
  - reflexivity.
  - discriminate.
  - intros m' [<-|[<-|[]]]; simpl; lia.
  - discriminate.
  - simpl. lia.
  - reflexivity.
Defined.

(** X11.  The move returned by plain [minimax] past depth 0 on a state
    with legal moves is a best move: the returned score is the minimax
    value of the state, and the successor reached by the returned move has
    exactly that value one ply shallower; the only other outcome is the
    untouched initial pair [(-inf, (-1,-1))] (maximizing) or
    [(+inf, (-1,-1))] (minimizing). *)
Theorem minimax_move_attains
        {game player : Type} `{B : Board game player}
        (self : CustomPlayer) (time_left : nat -> Q) (g : game) (d : nat)
        (mp : bool) (t t' : nat) (v : score) (m : move) :
  get_legal_moves g None <> [] ->
  minimax self time_left g (S d) mp t = Ret (v, m) t' ->
  v = minimax_value (sv self) mp (S d) g /\
  ((In m (get_legal_moves g None) /\
    minimax_value (sv self) (negb mp) d (forecast_move g m) = v) \/
   (m = sentinel /\ v = if mp then NegInf else PosInf)).
Proof.
  intros Hne H. split.
  - unfold minimax in H. apply bind_Ret in H as (? & ? & _ & H).
    destruct (search_value self time_left (S d) g) as (P1 & P2 & _).
    destruct mp; [exact (P1 _ _ _ _ _ H) | exact (P2 _ _ _ _ _ H)].
  - unfold minimax in H. apply bind_Ret in H as (? & ? & _ & H).
    destruct mp; cbn [max_value min_value negb] in H;
      apply bind_Ret in H as (? & ? & _ & H);
      destruct (get_legal_moves g None) as [|mv rest]; try congruence.
    + apply (max_loop_choice self time_left _
               (minimax_value (sv self) false d)) in H.
      * destruct H as [H|[Hin Hv]]; [right | left].
        -- injection H as -> ->. auto.
        -- simpl in *. auto.
      * intros g' ta xa ta' Ha.
        exact (proj1 (proj2 (search_value self time_left d g')) _ _ _ _ _ Ha).
    + apply (min_loop_choice self time_left _
               (minimax_value (sv self) true d)) in H.
      * destruct H as [H|[Hin Hv]]; [right | left].
        -- injection H as -> ->. auto.
        -- simpl in *. auto.
      * intros g' ta xa ta' Ha.
        exact (proj1 (search_value self time_left d g') _ _ _ _ _ Ha).
Qed.

Lemma minimax_move_attains_witness :
  let P := tree_player 3 false "minimax" 10 in
  fin 4 = minimax_value (sv P) true 2 fork_tree /\
  ((In (0, 1) (get_legal_moves fork_tree None) /\
    minimax_value (sv P) false 1 (forecast_move fork_tree (0, 1)) = fin 4) \/
   ((0, 1) = sentinel /\ fin 4 = NegInf)).
Proof.
  intros P.
  apply (minimax_move_attains P clock_forever fork_tree 1 true 0 10
           (fin 4) (0, 1)).
  - discriminate.
  - reflexivity.
Defined.

(** X12.  The move returned by [alphabeta] need not be a best move: on
    [tie_tree] at depth 2 both searches return the score 5, [minimax]
    with the move (0,0) whose successor is worth 5, [alphabeta] with the
    move (0,1) whose successor is worth 1, and [get_move] in iterative
    mode hands these moves to its caller.  (The cutoff [v <= alpha] hands
    back a bound equal to the best score so far, and the tie-break on
    moves then prefers the later move.) *)
Theorem alphabeta_move_not_optimal :
  exists (g : tree) (self : CustomPlayer) (d : nat)
         (s : score) (m m' : move) (t t' : nat),
    minimax self clock_forever g (S d) true 0%nat = Ret (s, m) t /\
    alphabeta self clock_forever g (S d) NegInf PosInf true 0%nat
    = Ret (s, m') t' /\
    minimax_value (sv self) false d (forecast_move g m) = s /\
    score_lt (minimax_value (sv self) false d (forecast_move g m')) s /\
    get_move (tree_player 3 true "minimax" 10) (clock_until 25) 5 g
             (get_legal_moves g None) 0 = Some (Val m) /\
    get_move (tree_player 3 true "alphabeta" 10) (clock_until 25) 5 g
             (get_legal_moves g None) 0 = Some (Val m').
Proof.
  exists tie_tree, (tree_player 3 true "alphabeta" 10), 1%nat,
         (fin 5), (0, 0), (0, 1), 12%nat, 10%nat.
  repeat split.
Qed.

(** ** The window of [alphabeta] *)

(** X13.  Called with bounds [alpha < beta], [alphabeta] returns a score
    that is the minimax value of the state when it lies strictly between
    the bounds, an upper bound of that value when it is at most [alpha],
    and a lower bound of it when it is at least [beta]. *)
Theorem alphabeta_window
        {game player : Type} `{B : Board game player}
        (self : CustomPlayer) (time_left : nat -> Q) (g : game)
        (depth : nat) (alpha beta : score) (mp : bool) (t t' : nat)
        (x : score * move) :
  score_lt alpha beta ->
  alphabeta self time_left g depth alpha beta mp t = Ret x t' ->
  (score_lt alpha (fst x) -> score_lt (fst x) beta ->
   fst x = minimax_value (sv self) mp depth g) /\
  (score_le (fst x) alpha ->
   score_le (minimax_value (sv self) mp depth g) (fst x)) /\
  (score_le beta (fst x) ->
   score_le (fst x) (minimax_value (sv self) mp depth g)).
Proof.
  intros Hab H. unfold alphabeta in H.
  apply bind_Ret in H as (? & ? & _ & H).
  destruct (search_value self time_left depth g) as (_ & _ & P3 & P4).
  assert (within (fst x) (minimax_value (sv self) mp depth g) alpha beta)
    as (W1 & W2 & W3).
  { destruct mp; [eapply P3 | eapply P4]; eassumption. }
  repeat split.
  - intros Ha Hb. symmetry. now apply W3.
  - exact W1.
  - exact W2.
Qed.

Lemma alphabeta_window_witness :
  let P := tree_player 3 false "alphabeta" 10 in
  (score_lt (fin 5) (fin 5) -> score_lt (fin 5) (fin 6) ->
   fin 5 = minimax_value (sv P) false 1 (forecast_move tie_tree (0, 1))) /\
  (score_le (fin 5) (fin 5) ->
   score_le (minimax_value (sv P) false 1 (forecast_move tie_tree (0, 1)))
            (fin 5)) /\
  (score_le (fin 6) (fin 5) ->
   score_le (fin 5)
            (minimax_value (sv P) false 1 (forecast_move tie_tree (0, 1)))).
Proof.
  intros P.
  apply (alphabeta_window P clock_forever (forecast_move tie_tree (0, 1)) 1
           (fin 5) (fin 6) false 0 4 (fin 5, (1, 1))).
  - reflexivity.
  - reflexivity.
Defined.

(** ** The cost of pruning *)

Section Cost.
Context {game player : Type} `{B : Board game player}.
Variable self : CustomPlayer (game := game).
Variables tl1 tl2 : nat -> Q.

Lemma plain_max_loop_mono child g moves acc :
  (forall g', reads_only (alive self tl2) (child g')) ->
  reads_only (alive self tl2) (max_loop self tl2 child g moves acc).
Proof.
  intros Hc.
  apply (closed_max_loop self tl2 (fun A => reads_only (alive self tl2))).
  - intros. apply reads_only_ret.
  - intros. now apply reads_only_bind.
  - apply reads_only_check_time.
  - exact Hc.
Qed.

Lemma plain_min_loop_mono child g moves acc :
  (forall g', reads_only (alive self tl2) (child g')) ->
  reads_only (alive self tl2) (min_loop self tl2 child g moves acc).
Proof.
  intros Hc.
  apply (closed_min_loop self tl2 (fun A => reads_only (alive self tl2))).
  - intros. apply reads_only_ret.
  - intros. now apply reads_only_bind.
  - apply reads_only_check_time.
  - exact Hc.
Qed.

Lemma plain_search_mono (d : nat) (g : game) (p : bool) (a b : score) :
  reads_only (alive self tl2) (max_value self tl2 d g p a b) /\
  reads_only (alive self tl2) (min_value self tl2 d g p a b).
Proof.
  apply (closed_search self tl2 (fun A => reads_only (alive self tl2))).
  - intros. apply reads_only_ret.
  - intros. now apply reads_only_bind.
  - apply reads_only_check_time.
  - intros. apply reads_only_lift.
Qed.

Lemma cheaper_max_loop cp c g moves :
  (forall a b g', cheaper (cp a b g') (c g')) ->
  (forall g', reads_only (alive self tl2) (c g')) ->
  forall acc1 acc2 a b,
    cheaper (max_loop_prune self tl1 cp g moves acc1 a b)
            (max_loop self tl2 c g moves acc2).
Proof.
  intros Hc Hm. induction moves as [|mv rest IH];
    intros acc1 acc2 a b t1 t2 x y t1' t2' H1 H2;
    cbn [max_loop_prune max_loop] in *.
  - unfold ret in *. injection H1 as _ <-. injection H2 as _ <-. lia.
  - apply bind_Ret in H1 as (? & s1 & C1 & H1).
    apply bind_Ret in H1 as (r1 & u1 & R1 & H1).
    apply bind_Ret in H2 as (? & s2 & C2 & H2).
    apply bind_Ret in H2 as (r2 & u2 & R2 & H2).
    apply check_time_Ret in C1 as [-> _]. apply check_time_Ret in C2 as [-> _].
    pose proof (Hc _ _ _ _ _ _ _ _ _ R1 R2) as Hchild.
    destruct (score_geb _ b).
    + unfold ret in H1. injection H1 as _ <-.
      destruct (plain_max_loop_mono c g rest _ Hm _ _ _ H2) as [L _]. lia.
    + pose proof (IH _ _ _ _ _ _ _ _ _ _ H1 H2). lia.
Qed.

Lemma cheaper_min_loop cp c g moves :
  (forall a b g', cheaper (cp a b g') (c g')) ->
  (forall g', reads_only (alive self tl2) (c g')) ->
  forall acc1 acc2 a b,
    cheaper (min_loop_prune self tl1 cp g moves acc1 a b)
            (min_loop self tl2 c g moves acc2).
Proof.
  intros Hc Hm. induction moves as [|mv rest IH];
    intros acc1 acc2 a b t1 t2 x y t1' t2' H1 H2;
    cbn [min_loop_prune min_loop] in *.
  - unfold ret in *. injection H1 as _ <-. injection H2 as _ <-. lia.
  - apply bind_Ret in H1 as (? & s1 & C1 & H1).
    apply bind_Ret in H1 as (r1 & u1 & R1 & H1).
    apply bind_Ret in H2 as (? & s2 & C2 & H2).
    apply bind_Ret in H2 as (r2 & u2 & R2 & H2).
    apply check_time_Ret in C1 as [-> _]. apply check_time_Ret in C2 as [-> _].
    pose proof (Hc _ _ _ _ _ _ _ _ _ R1 R2) as Hchild.
    destruct (score_leb _ a).
    + unfold ret in H1. injection H1 as _ <-.
      destruct (plain_min_loop_mono c g rest _ Hm _ _ _ H2) as [L _]. lia.
    + pose proof (IH _ _ _ _ _ _ _ _ _ _ H1 H2). lia.
Qed.

Lemma cheaper_checked {A} (m1 m2 : M A) :
  cheaper m1 m2 ->
  cheaper (bind (check_time self tl1) (fun _ => m1))
          (bind (check_time self tl2) (fun _ => m2)).
Proof.
  intros Hm t1 t2 x y t1' t2' H1 H2.
  apply bind_Ret in H1 as (? & s1 & C1 & H1).
  apply bind_Ret in H2 as (? & s2 & C2 & H2).
  apply check_time_Ret in C1 as [-> _]. apply check_time_Ret in C2 as [-> _].
  pose proof (Hm _ _ _ _ _ _ H1 H2). lia.
Qed.

Lemma cheaper_utility (g : game) : cheaper (utility self g) (utility self g).
Proof.
  intros t1 t2 x y t1' t2' H1 H2.
  apply utility_Ret in H1 as [_ ->]. apply utility_Ret in H2 as [_ ->]. lia.
Qed.

Lemma cheaper_search (d : nat) :
  forall g a b a' b',
    cheaper (max_value self tl1 d g true a b)
            (max_value self tl2 d g false a' b') /\
    cheaper (min_value self tl1 d g true a b)
            (min_value self tl2 d g false a' b').
Proof.
  induction d as [|d IH]; intros g a b a' b'; cbn [max_value min_value].
  - split; apply cheaper_checked, cheaper_utility.
  - split; apply cheaper_checked;
      (destruct (get_legal_moves g None) as [|m l]; [apply cheaper_utility|]);
      cbn [negb].
    + apply cheaper_max_loop.
      * intros a0 b0 g'. apply IH.
      * intros g'. apply plain_search_mono.
    + apply cheaper_min_loop.
      * intros a0 b0 g'. apply IH.
      * intros g'. apply plain_search_mono.
Qed.

End Cost.

(** X14.  On the same state and depth, [alphabeta] (with any bounds)
    never takes more clock readings than [minimax] when both return: it
    enters no more nodes and tries no more moves. *)
Theorem alphabeta_no_costlier
        {game player : Type} `{B : Board game player}
        (self : CustomPlayer) (tl1 tl2 : nat -> Q) (g : game) (depth : nat)
        (alpha beta : score) (mp : bool) (t1 t2 t1' t2' : nat)
        (x y : score * move) :
  alphabeta self tl1 g depth alpha beta mp t1 = Ret x t1' ->
  minimax self tl2 g depth mp t2 = Ret y t2' ->
  (t1' - t1 <= t2' - t2)%nat.
Proof.
  intros H1 H2.
  assert (t1' + t2 <= t2' + t1)%nat as H; [|lia].
  revert H1 H2. unfold alphabeta, minimax.
  apply cheaper_checked. destruct mp; apply cheaper_search.
Qed.

Lemma alphabeta_no_costlier_witness :
  (10 - 0 <= 12 - 0)%nat.
Proof.
  apply (alphabeta_no_costlier (tree_player 3 true "alphabeta" 10)
           clock_forever clock_forever tie_tree 2 NegInf PosInf true
           0 0 10 12 (fin 5, (0, 1)) (fin 5, (0, 0)));
    reflexivity.
Defined.

(** ** Fixed-depth mode *)


